(** * effect-redis: command groups and the multi / pipeline orchestration

    A shallow embedding of [core/index.ts], [commands/hyper-log-log.ts] and
    [commands/geospatial.ts].

    - JavaScript values are an inductive type [JsValue]; [null] is [JNull].
    - A JavaScript call either returns or throws ([Completion]); a promise
      either resolves or rejects ([Settled]).
    - An [Effect] is a function of the outside world [W] (the store, the
      connection, the queuing handles) to an [Exit] and the world after it.
      [Effect.gen] is sequencing with short-circuit on a failure; a value
      thrown by a plain statement of a generator body is a defect ([Die]),
      a typed failure is [Fail].
    - Objects used as tables of callables are [gmap string _]; object spread
      is right-biased union. *)

From stdpp Require Import gmap strings list fin_maps.


(** ** JavaScript values, completions, promises *)

#[warnings="-register-all"]
Inductive JsValue : Type :=
| JNull
| JUndefined
| JBool (b : bool)
| JNum (z : Z)
| JStr (s : string)
| JArr (xs : list JsValue)
| JObj (fields : list (string * JsValue)).

(** Outcome of a synchronous call: it returns, or it throws a value. *)
Inductive Completion (A : Type) : Type :=
| Returned (a : A)
| Thrown (e : JsValue).
Arguments Returned {A} a.
Arguments Thrown {A} e.

(** Outcome of awaiting a promise. *)
Inductive Settled (A : Type) : Type :=
| Resolved (a : A)
| Rejected (reason : JsValue).
Arguments Resolved {A} a.
Arguments Rejected {A} reason.

#[export] Instance Completion_ret : MRet Completion := fun _ a => Returned a.
#[export] Instance Completion_bind : MBind Completion := fun _ _ f m =>
  match m with
  | Returned a => f a
  | Thrown e => Thrown e
  end.

(** What [obj[k](...)] throws when [obj[k]] is not callable. *)
Definition TypeError (k : string) : JsValue :=
  JStr ("TypeError: " +:+ k +:+ " is not a function").

(** ** errors.ts: the unified error *)

(** [new RedisError({ cause: e })] *)
Record RedisError : Type := NewRedisError { cause : JsValue }.

(** ** Effect *)

Inductive Cause (E : Type) : Type :=
| Fail (e : E)
| Die (defect : JsValue).
Arguments Fail {E} e.
Arguments Die {E} defect.

Inductive Exit (E A : Type) : Type :=
| Success (a : A)
| Failure (c : Cause E).
Arguments Success {E A} a.
Arguments Failure {E A} c.

(** Did the effect succeed? *)
Definition succeeded {E A} (x : Exit E A) : bool :=
  match x with
  | Success _ => true
  | Failure _ => false
  end.

Definition Effect (W E A : Type) : Type := W -> Exit E A * W.

Module Effect.
Section Ops.
Context {W E : Type}.

Definition succeed {A} (a : A) : Effect W E A := fun w => (Success a, w).
Definition fail {A} (e : E) : Effect W E A := fun w => (Failure (Fail e), w).
Definition die {A} (d : JsValue) : Effect W E A := fun w => (Failure (Die d), w).

(** [yield*] inside [Effect.gen]: run [m]; on success continue with [k],
    otherwise stop with the same cause. *)
Definition flatMap {A B} (m : Effect W E A) (k : A -> Effect W E B) : Effect W E B :=
  fun w =>
    match m w with
    | (Success a, w') => k a w'
    | (Failure c, w') => (Failure c, w')
    end.

(** A plain statement of a generator body ([const x = f()]): a thrown
    value ends the generator as a defect. *)
Definition stmt {A} (f : W -> Completion A * W) : Effect W E A :=
  fun w =>
    match f w with
    | (Returned a, w') => (Success a, w')
    | (Thrown d, w') => (Failure (Die d), w')
    end.

(** A statement that does not touch the world. *)
Definition pure_stmt {A} (r : Completion A) : Effect W E A :=
  stmt (fun w => (r, w)).

(** [Effect.tryPromise({ try, catch })]: the promise's value on
    resolution; [catch] applied to the reason on rejection, and to the
    thrown value when [try] itself throws. *)
Definition tryPromise {A} (catch : JsValue -> E)
    (try : W -> Completion (Settled A) * W) : Effect W E A :=
  fun w =>
    match try w with
    | (Returned (Resolved a), w') => (Success a, w')
    | (Returned (Rejected e), w') => (Failure (Fail (catch e)), w')
    | (Thrown e, w') => (Failure (Fail (catch e)), w')
    end.
End Ops.
End Effect.

Notation "'yield' x <~ m ; k" := (Effect.flatMap m (fun x => k))
  (at level 10, x name, m at level 100, k at level 200, only parsing).

(** ** The underlying client (package [redis]) *)

(** A method of an object: arguments in, a completion out, the world changed. *)
Definition Method (W R : Type) : Type := list JsValue -> W -> Completion R * W.

(** An object seen through its callable members: [obj k = None] when
    [obj[k]] is not a function. *)
Definition JsObject (W R : Type) : Type := string -> option (Method W R).

(** [obj[k](...args)] *)
Definition invoke {W R} (obj : JsObject W R) (k : string) : Method W R :=
  fun args w =>
    match obj k with
    | Some m => m args w
    | None => (Thrown (TypeError k), w)
    end.

(** The queuing handle returned by [c.multi()]. Its command methods return
    a value of type [Chain] (the handle itself, for chaining). *)
Record RedisClientMultiCommandType (W Chain : Type) : Type := {
  multi_method : JsObject W Chain;
  multi_json_method : JsObject W Chain;
  multi_exec : W -> Completion (Settled (option (list JsValue))) * W;
  multi_execAsPipeline : W -> Completion (Settled (list JsValue)) * W;
}.
Arguments multi_method {W Chain} _.
Arguments multi_json_method {W Chain} _.
Arguments multi_exec {W Chain} _.
Arguments multi_execAsPipeline {W Chain} _.

Record RedisClientType (W Chain : Type) : Type := {
  client_method : JsObject W (Settled JsValue);
  client_json_method : JsObject W (Settled JsValue);
  client_multi : W -> Completion (RedisClientMultiCommandType W Chain) * W;
}.
Arguments client_method {W Chain} _.
Arguments client_json_method {W Chain} _.
Arguments client_multi {W Chain} _.

(** ** Composition functions as scripts *)

(** A composition function that uses nothing but the surface it is given:
    queued calls return no value, so such a function is a sequence of
    queued calls ended by a return, a typed failure or a throw. *)
Inductive Script (A : Type) : Type :=
| Return (a : A)
| Queue (json : bool) (k : string) (args : list JsValue) (next : Script A)
| FailWith (e : RedisError)
| Throw (d : JsValue).
Arguments Return {A} a.
Arguments Queue {A} json k args next.
Arguments FailWith {A} e.
Arguments Throw {A} d.

(** ** The families whose files are not at hand

    [commands/bitmap.ts], [generic.ts], [hash.ts], [list.ts], [scripting.ts],
    [set.ts], [sorted-set.ts], [string.ts] and [json.ts] each declare one
    constant list of names; the lists are parameters of the development. *)
Class FamilyKeys : Type := {
  redisBitmapKeys : list string;
  redisGenericKeys : list string;
  redisHashKeys : list string;
  redisListKeys : list string;
  redisScriptingKeys : list string;
  redisSetKeys : list string;
  redisSortedSetKeys : list string;
  redisStringKeys : list string;
  redisJsonKeys : list string;
}.

(** ** helpers: the command group factory and the two execution strategies *)

Section Core.
Context {W Chain : Type} {families : FamilyKeys}.

Local Abbreviation Eff := (Effect W RedisError).
Local Abbreviation AsyncCallable := (list JsValue -> Effect W RedisError JsValue).
Local Abbreviation QueueCallable := (list JsValue -> Effect W RedisError unit).
Local Abbreviation Client := (RedisClientType W Chain).
Local Abbreviation TxClient := (RedisClientMultiCommandType W Chain).

(** Modelled from the spec: helpers' [AsyncExec] is absent. Section 4.2,
    Immediate: invoke the handle's method of the same name, await it, on
    failure wrap the cause into the unified error, on success yield the
    value unchanged. *)
Definition AsyncExec (c : JsObject W (Settled JsValue)) (k : string) : AsyncCallable :=
  fun args => Effect.tryPromise NewRedisError (invoke c k args).

(** Modelled from the spec: helpers' [QueueExec] is absent. Section 4.2,
    Queued: forward the call to the queuing handle's method of the same
    name, which records the command and returns the handle; the adapted
    callable ignores that return value. A throw of the method is surfaced
    as the unified error (section 6: one error kind for every command). *)
Definition QueueExec (c : JsObject W Chain) (k : string) : QueueCallable :=
  fun args w =>
    match invoke c k args w with
    | (Returned _, w') => (Success tt, w')
    | (Thrown e, w') => (Failure (Fail (NewRedisError e)), w')
    end.

(** Modelled from the spec: helpers' [makeCommandGroup] is absent. Section
    4.1: one entry per name, each [exec handle name]; a name that is not a
    callable member of the handle makes construction fail (throw) rather
    than yield a no-op entry; building the table touches nothing else. *)
Definition makeCommandGroup {R C} (client : JsObject W R) (keys : list string)
    (exec : JsObject W R -> string -> C) : Completion (gmap string C) :=
  foldl (fun acc k =>
           table ← acc;
           match client k with
           | Some _ => mret (<[k := exec client k]> table)
           | None => Thrown (TypeError k)
           end)
        (mret ∅) keys.

(** Object spread [{ ...a, ...b }]: on a shared key the later table wins. *)
Definition spread {C} (tables : list (gmap string C)) : gmap string C :=
  foldl (fun acc t => t ∪ acc) ∅ tables.

(** ** commands/hyper-log-log.ts *)

Definition redisHyperLogLogKeys : list string :=
  ["pfAdd"; "pfCount"; "pfMerge"].

Definition makeRedisHyperLogLog (client : Client) :=
  makeCommandGroup (client_method client) redisHyperLogLogKeys AsyncExec.

(** The queue constructors are declared over [RedisClientType] and applied
    by [makeRedisTx] to the handle [c.multi()] returned. *)
Definition makeRedisHyperLogLogQueue (client : TxClient) :=
  makeCommandGroup (multi_method client) redisHyperLogLogKeys QueueExec.

(** ** commands/geospatial.ts *)

Definition redisGeoSpatialKeys : list string :=
  ["geoAdd"; "geoDist"; "geoHash"; "geoPos"; "geoRadius";
   "geoRadiusByMember"; "geoRadiusByMemberRo"; "geoRadiusRo";
   "geoSearch"; "geoSearchStore"].

Definition makeRedisGeoSpatial (client : Client) :=
  makeCommandGroup (client_method client) redisGeoSpatialKeys AsyncExec.

Definition makeRedisGeoSpatialQueue (client : TxClient) :=
  makeCommandGroup (multi_method client) redisGeoSpatialKeys QueueExec.

(** ** The nine other families *)

(** Modelled from the spec: commands/bitmap.ts is absent; section 4.3: a
    family is its name list put through the factory, once per strategy. *)
Definition makeRedisBitmap (client : Client) :=
  makeCommandGroup (client_method client) redisBitmapKeys AsyncExec.
(** Modelled from the spec: commands/bitmap.ts is absent (section 4.3). *)
Definition makeRedisBitmapQueue (client : TxClient) :=
  makeCommandGroup (multi_method client) redisBitmapKeys QueueExec.

(** Modelled from the spec: commands/generic.ts is absent (section 4.3). *)
Definition makeRedisGeneric (client : Client) :=
  makeCommandGroup (client_method client) redisGenericKeys AsyncExec.
(** Modelled from the spec: commands/generic.ts is absent (section 4.3). *)
Definition makeRedisGenericQueue (client : TxClient) :=
  makeCommandGroup (multi_method client) redisGenericKeys QueueExec.

(** Modelled from the spec: commands/hash.ts is absent (section 4.3). *)
Definition makeRedisHash (client : Client) :=
  makeCommandGroup (client_method client) redisHashKeys AsyncExec.
(** Modelled from the spec: commands/hash.ts is absent (section 4.3). *)
Definition makeRedisHashQueue (client : TxClient) :=
  makeCommandGroup (multi_method client) redisHashKeys QueueExec.

(** Modelled from the spec: commands/list.ts is absent (section 4.3). *)
Definition makeRedisList (client : Client) :=
  makeCommandGroup (client_method client) redisListKeys AsyncExec.
(** Modelled from the spec: commands/list.ts is absent (section 4.3). *)
Definition makeRedisListQueue (client : TxClient) :=
  makeCommandGroup (multi_method client) redisListKeys QueueExec.

(** Modelled from the spec: commands/scripting.ts is absent (section 4.3). *)
Definition makeRedisScripting (client : Client) :=
  makeCommandGroup (client_method client) redisScriptingKeys AsyncExec.
(** Modelled from the spec: commands/scripting.ts is absent (section 4.3). *)
Definition makeRedisScriptingQueue (client : TxClient) :=
  makeCommandGroup (multi_method client) redisScriptingKeys QueueExec.

(** Modelled from the spec: commands/set.ts is absent (section 4.3). *)
Definition makeRedisSet (client : Client) :=
  makeCommandGroup (client_method client) redisSetKeys AsyncExec.
(** Modelled from the spec: commands/set.ts is absent (section 4.3). *)
Definition makeRedisSetQueue (client : TxClient) :=
  makeCommandGroup (multi_method client) redisSetKeys QueueExec.

(** Modelled from the spec: commands/sorted-set.ts is absent (section 4.3). *)
Definition makeRedisSortedSet (client : Client) :=
  makeCommandGroup (client_method client) redisSortedSetKeys AsyncExec.
(** Modelled from the spec: commands/sorted-set.ts is absent (section 4.3). *)
Definition makeRedisSortedSetQueue (client : TxClient) :=
  makeCommandGroup (multi_method client) redisSortedSetKeys QueueExec.

(** Modelled from the spec: commands/string.ts is absent (section 4.3). *)
Definition makeRedisString (client : Client) :=
  makeCommandGroup (client_method client) redisStringKeys AsyncExec.
(** Modelled from the spec: commands/string.ts is absent (section 4.3). *)
Definition makeRedisStringQueue (client : TxClient) :=
  makeCommandGroup (multi_method client) redisStringKeys QueueExec.

(** Modelled from the spec: commands/json.ts is absent; section 4.3: the
    document family is structurally identical, over the handle's nested
    [json] member. *)
Definition makeRedisJson (client : Client) :=
  makeCommandGroup (client_json_method client) redisJsonKeys AsyncExec.
(** Modelled from the spec: commands/json.ts is absent (section 4.3). *)
Definition makeRedisJsonQueue (client : TxClient) :=
  makeCommandGroup (multi_json_method client) redisJsonKeys QueueExec.

(** ** core/index.ts *)

(** The queued capability surface. The object literal's own [json] member
    comes last, so a family entry of that name would be replaced by it. *)
Record RedisTxShape : Type := {
  tx_commands : gmap string QueueCallable;
  tx_json : gmap string QueueCallable;
}.

(** The exec slot of [multi]'s result is [ReadonlyArray<unknown> | null]. *)
Definition Multi : Type :=
  forall A : Type, (RedisTxShape -> Eff A) -> Eff (A * option (list JsValue)).

(** The exec slot of [pipeline]'s result is [ReadonlyArray<unknown>]. *)
Definition Pipeline : Type :=
  forall A : Type, (RedisTxShape -> Eff A) -> Eff (A * list JsValue).

Record RedisCoreShape : Type := {
  core_commands : gmap string AsyncCallable;
  core_json : gmap string AsyncCallable;
  multi : Multi;
  pipeline : Pipeline;
}.

Definition makeRedisTx (c : TxClient) : Completion RedisTxShape :=
  bitMap ← makeRedisBitmapQueue c;
  generic ← makeRedisGenericQueue c;
  hash ← makeRedisHashQueue c;
  hyperLogLog ← makeRedisHyperLogLogQueue c;
  list ← makeRedisListQueue c;
  scripting ← makeRedisScriptingQueue c;
  set ← makeRedisSetQueue c;
  sortedSet ← makeRedisSortedSetQueue c;
  string ← makeRedisStringQueue c;
  geospatial ← makeRedisGeoSpatialQueue c;
  json ← makeRedisJsonQueue c;
  mret {| tx_commands :=
            delete "json"
              (spread [bitMap; generic; hash; hyperLogLog; list; scripting;
                       set; sortedSet; string; geospatial]);
          tx_json := json |}.

Definition core_multi (c : Client) : Multi := fun A program =>
  yield txClient <~ Effect.stmt (client_multi c);
  yield txApi <~ Effect.pure_stmt (makeRedisTx txClient);
  yield programResult <~ program txApi;
  yield execResult <~ Effect.tryPromise NewRedisError (multi_exec txClient);
  Effect.succeed (programResult, execResult).

Definition core_pipeline (c : Client) : Pipeline := fun A program =>
  yield txClient <~ Effect.stmt (client_multi c);
  yield txApi <~ Effect.pure_stmt (makeRedisTx txClient);
  yield programResult <~ program txApi;
  yield execResult <~ Effect.tryPromise NewRedisError (multi_execAsPipeline txClient);
  Effect.succeed (programResult, execResult).

(** The object literal's own [json], [multi] and [pipeline] members come
    after the spreads, so a family entry of one of these names would be
    replaced by them. *)
Definition makeRedisCore (c : Client) : Completion RedisCoreShape :=
  bitMap ← makeRedisBitmap c;
  generic ← makeRedisGeneric c;
  hash ← makeRedisHash c;
  hyperLogLog ← makeRedisHyperLogLog c;
  list ← makeRedisList c;
  scripting ← makeRedisScripting c;
  set ← makeRedisSet c;
  sortedSet ← makeRedisSortedSet c;
  string ← makeRedisString c;
  geospatial ← makeRedisGeoSpatial c;
  json ← makeRedisJson c;
  mret {| core_commands :=
            delete "pipeline" (delete "multi" (delete "json"
              (spread [bitMap; generic; hash; hyperLogLog; list; scripting;
                       set; sortedSet; string; geospatial])));
          core_json := json;
          multi := core_multi c;
          pipeline := core_pipeline c |}.

(** The service read by [yield* RedisConnection]; only [client] is used. *)
Record RedisConnection : Type := { client : Client }.

(** The arguments of the probe call. *)
Definition probe_args : list JsValue :=
  [JStr "return redis.call('GET',KEYS[1])";
   JObj [("arguments", JArr []); ("keys", JArr [JStr "key"])]].

(** An expression statement [obj.k(...)]: the value it returns (here a
    promise) is dropped. *)
Definition call_and_drop {R} (obj : JsObject W R) (k : string)
    (args : list JsValue) : W -> Completion unit * W :=
  fun w =>
    match invoke obj k args w with
    | (Returned _, w') => (Returned tt, w')
    | (Thrown e, w') => (Thrown e, w')
    end.

(** The effect of [Layer.effect(RedisCore, ...)], given the connection
    service the layer requires. *)
Definition RedisCoreLive (conn : RedisConnection) : Eff RedisCoreShape :=
  yield _ <~ Effect.stmt (call_and_drop (client_method (client conn)) "eval" probe_args);
  Effect.pure_stmt (makeRedisCore (client conn)).

(** ** Composition functions written against the queued surface *)

(** [tx.k(...args)], or [tx.json.k(...args)]: calling a member the surface
    does not have throws inside the generator. *)
Definition call_member (table : gmap string QueueCallable) (k : string)
    (args : list JsValue) : Eff unit :=
  match table !! k with
  | Some f => f args
  | None => Effect.die (TypeError k)
  end.

Fixpoint compose {A} (s : Script A) (tx : RedisTxShape) : Eff A :=
  match s with
  | Return a => Effect.succeed a
  | Queue json k args next =>
      yield _ <~ call_member (if json then tx_json tx else tx_commands tx) k args;
      compose next tx
  | FailWith e => Effect.fail e
  | Throw d => Effect.die d
  end.

(** Open and Build: acquire the handle, construct the surface, run the
    composition function. *)
Definition open_build {A} (c : Client) (program : RedisTxShape -> Eff A)
    : Eff (TxClient * A) :=
  yield txClient <~ Effect.stmt (client_multi c);
  yield txApi <~ Effect.pure_stmt (makeRedisTx txClient);
  yield programResult <~ program txApi;
  Effect.succeed (txClient, programResult).

(** The table the factory allocates for a list of names. *)
Definition group_table {R C} (client : JsObject W R)
    (exec : JsObject W R -> string -> C) (keys : list string) : gmap string C :=
  foldl (fun table k => <[k := exec client k]> table) ∅ keys.

(** The names of the ten flattened families, in the order of the spreads. *)
Definition flatKeys : list string :=
  concat [redisBitmapKeys; redisGenericKeys; redisHashKeys; redisHyperLogLogKeys;
          redisListKeys; redisScriptingKeys; redisSetKeys; redisSortedSetKeys;
          redisStringKeys; redisGeoSpatialKeys].

(** ** What happened during an orchestration *)

(** Open and Build went through: [c.multi()] returned [txClient], the
    surface was constructed over it, and the composition function ran on
    that surface, ending as [r] in world [w2]. *)
Definition built_and_ran {A} (c : Client) (program : RedisTxShape -> Eff A)
    (w : W) (txClient : TxClient) (r : Exit RedisError A) (w2 : W) : Prop :=
  exists txApi w1,
    client_multi c w = (Returned txClient, w1) /\
    makeRedisTx txClient = Returned txApi /\
    program txApi w1 = (r, w2).

(** [c.multi()] threw [d], or the construction of the surface did. *)
Definition open_threw (c : Client) (w : W) (d : JsValue) (w' : W) : Prop :=
  client_multi c w = (Thrown d, w') \/
  exists txClient,
    client_multi c w = (Returned txClient, w') /\ makeRedisTx txClient = Thrown d.

(** The batch-execution call threw [e], or its promise rejected with [e]. *)
Definition batch_failed {R} (execute : W -> Completion (Settled R) * W)
    (w2 : W) (e : JsValue) (w3 : W) : Prop :=
  execute w2 = (Returned (Rejected e), w3) \/ execute w2 = (Thrown e, w3).

(** The exec slot of an Outcome Pair as the JavaScript value it is. *)
Definition multi_slot (r : option (list JsValue)) : JsValue :=
  match r with
  | Some replies => JArr replies
  | None => JNull
  end.

Definition pipeline_slot (r : list JsValue) : JsValue := JArr r.

End Core.

(** ** A reference client

    The package [redis] is outside the repository. This is a client with the
    interface the code relies on (spec, section 6): one method per command
    name, on the client and on its nested [json] member; [multi()] hands out
    a new queuing handle whose methods record the command and return the
    handle; [exec()] applies the recorded batch to the store in order and
    resolves with one reply per command; when the store discards the
    transaction (EXEC answers the null array) the redis client does not
    resolve with [null] but rejects with its [WatchError];
    [execAsPipeline()] applies the batch and
    resolves with the replies. A call on a closed connection rejects. The
    store itself is a parameter: any type of states with any command
    semantics. *)

Record Command : Type := {
  cmd_json : bool;
  cmd_name : string;
  cmd_args : list JsValue;
}.

(** The calls the client receives, in order. *)
Inductive Event : Type :=
| EvCall (cmd : Command)
| EvMulti (h : nat)
| EvQueue (h : nat) (cmd : Command)
| EvExec (h : nat)
| EvExecAsPipeline (h : nat).

(** The queuing handle a call is addressed to, if any. *)
Definition event_handle (e : Event) : option nat :=
  match e with
  | EvCall _ => None
  | EvMulti h => Some h
  | EvQueue h _ => Some h
  | EvExec h => Some h
  | EvExecAsPipeline h => Some h
  end.

Record World (St : Type) : Type := {
  store : St;
  queues : gmap nat (list Command);
  next_handle : nat;
  trace : list Event;
  connected : bool;
  discards : bool;
}.
Arguments store {St} _.
Arguments queues {St} _.
Arguments next_handle {St} _.
Arguments trace {St} _.
Arguments connected {St} _.
Arguments discards {St} _.

Definition ClientClosedError : JsValue := JStr "ClientClosedError".

(** What [exec()] rejects with when the store discards the transaction. *)
Definition WatchError : JsValue := JStr "WatchError".

Module MemClient.
Section Store.
Context {St : Type}.
Variable step : Command -> St -> JsValue * St.
Variable callable : bool -> string -> bool.

Local Abbreviation W := (World St).

Definition log (e : Event) (w : W) : W :=
  {| store := store w; queues := queues w; next_handle := next_handle w;
     trace := trace w ++ [e]; connected := connected w; discards := discards w |}.

Definition with_store (s : St) (w : W) : W :=
  {| store := s; queues := queues w; next_handle := next_handle w;
     trace := trace w; connected := connected w; discards := discards w |}.

Definition queue_of (h : nat) (w : W) : list Command :=
  default [] (queues w !! h).

(** An immediate command: applied to the store when the connection is up. *)
Definition send (cmd : Command) : W -> Completion (Settled JsValue) * W :=
  fun w =>
    if connected w then
      let '(v, s') := step cmd (store w) in
      (Returned (Resolved v), with_store s' (log (EvCall cmd) w))
    else (Returned (Rejected ClientClosedError), log (EvCall cmd) w).

Definition method (json : bool) : JsObject W (Settled JsValue) :=
  fun k =>
    if callable json k
    then Some (fun args => send {| cmd_json := json; cmd_name := k; cmd_args := args |})
    else None.

(** A command method of a queuing handle: record, return the handle. *)
Definition enqueue (h : nat) (cmd : Command) (w : W) : W :=
  {| store := store w;
     queues := <[h := queue_of h w ++ [cmd]]> (queues w);
     next_handle := next_handle w;
     trace := trace w ++ [EvQueue h cmd];
     connected := connected w; discards := discards w |}.

Definition handle_method (h : nat) (json : bool) : JsObject W nat :=
  fun k =>
    if callable json k
    then Some (fun args w =>
           (Returned h,
            enqueue h {| cmd_json := json; cmd_name := k; cmd_args := args |} w))
    else None.

(** The batch applied to the store, command by command. *)
Fixpoint run_batch (cmds : list Command) (s : St) : list JsValue * St :=
  match cmds with
  | [] => ([], s)
  | cmd :: rest =>
      let '(v, s1) := step cmd s in
      let '(vs, s2) := run_batch rest s1 in
      (v :: vs, s2)
  end.

Definition exec (h : nat) : W -> Completion (Settled (option (list JsValue))) * W :=
  fun w =>
    if connected w then
      if discards w then (Returned (Rejected WatchError), log (EvExec h) w)
      else
        let '(vs, s') := run_batch (queue_of h w) (store w) in
        (Returned (Resolved (Some vs)), with_store s' (log (EvExec h) w))
    else (Returned (Rejected ClientClosedError), log (EvExec h) w).

Definition execAsPipeline (h : nat) : W -> Completion (Settled (list JsValue)) * W :=
  fun w =>
    if connected w then
      let '(vs, s') := run_batch (queue_of h w) (store w) in
      (Returned (Resolved vs), with_store s' (log (EvExecAsPipeline h) w))
    else (Returned (Rejected ClientClosedError), log (EvExecAsPipeline h) w).

Definition handle (h : nat) : RedisClientMultiCommandType W nat :=
  {| multi_method := handle_method h false;
     multi_json_method := handle_method h true;
     multi_exec := exec h;
     multi_execAsPipeline := execAsPipeline h |}.

(** [multi()]: a handle nobody holds yet, with an empty batch. *)
Definition start_batch (w : W) : W :=
  {| store := store w;
     queues := <[next_handle w := []]> (queues w);
     next_handle := S (next_handle w);
     trace := trace w ++ [EvMulti (next_handle w)];
     connected := connected w; discards := discards w |}.

Definition client : RedisClientType W nat :=
  {| client_method := method false;
     client_json_method := method true;
     client_multi := fun w => (Returned (handle (next_handle w)), start_batch w) |}.

End Store.
End MemClient.

(** ** Scripts against the reference client *)

Section MemDefs.
Context {St : Type} {families : FamilyKeys}.

(** Is [tx.k] (or [tx.json.k]) an entry of the queued surface? *)
Definition member (json : bool) (k : string) : bool :=
  if json then bool_decide (k ∈ redisJsonKeys)
  else bool_decide (k ∈ flatKeys /\ k <> "json").

(** The commands a script queues before it ends. *)
Fixpoint queued {A} (s : Script A) : list Command :=
  match s with
  | Queue json k args next =>
      if member json k
      then {| cmd_json := json; cmd_name := k; cmd_args := args |} :: queued next
      else []
  | _ => []
  end.

(** How a script ends. *)
Fixpoint outcome {A} (s : Script A) : Exit RedisError A :=
  match s with
  | Return a => Success a
  | Queue json k args next =>
      if member json k then outcome next else Failure (Die (TypeError k))
  | FailWith e => Failure (Fail e)
  | Throw d => Failure (Die d)
  end.

Definition enqueue_all (h : nat) (cmds : list Command) (w : World St) : World St :=
  foldl (fun w cmd => MemClient.enqueue h cmd w) w cmds.

(** The world when Build ends: the handle allocated, the batch recorded. *)
Definition built (w : World St) (cmds : list Command) : World St :=
  enqueue_all (next_handle w) cmds (MemClient.start_batch w).

(** The world an orchestration leaves: [multi] when [atomic], else
    [pipeline]. *)
Definition world_after (step : Command -> St -> JsValue * St)
    (callable : bool -> string -> bool) (atomic : bool) {A} (s : Script A)
    (w : World St) : World St :=
  if atomic
  then (core_multi (MemClient.client step callable) A (compose s) w).2
  else (core_pipeline (MemClient.client step callable) A (compose s) w).2.

(** Every handle that holds a batch was handed out by the allocator. *)
Definition handles_allocated (w : World St) : Prop :=
  forall h, is_Some (queues w !! h) -> h < next_handle w.

End MemDefs.

(** The execution call an orchestration ends with: one when its composition
    function returned, none when it failed. *)
Definition execution_call {A} (atomic : bool) (h : nat)
    (o : Exit RedisError A) : list Event :=
  match o with
  | Success _ => [if atomic then EvExec h else EvExecAsPipeline h]
  | Failure _ => []
  end.

(** ** A concrete instance *)

(** README.md, "Complete Command Reference": the names the nine families
    are documented to carry. *)
Definition readme_families : FamilyKeys :=
  {| redisBitmapKeys :=
       ["bitCount"; "bitField"; "bitFieldRo"; "bitOp"; "bitPos"; "getBit"; "setBit"];
     redisGenericKeys :=
       ["copy"; "del"; "dump"; "exists"; "expire"; "expireAt"; "expireTime";
        "keys"; "migrate"; "move"; "persist"; "pExpire"; "pExpireAt";
        "pExpireTime"; "pTTL"; "randomKey"; "rename"; "renameNX"; "restore";
        "scan"; "sort"; "sortRo"; "touch"; "ttl"; "type"; "unlink"; "wait"];
     redisHashKeys :=
       ["hDel"; "hExists"; "hExpire"; "hExpireAt"; "hExpireTime"; "hGet";
        "hGetAll"; "hGetDel"; "hGetEx"; "hIncrBy"; "hIncrByFloat"; "hKeys";
        "hLen"; "hmGet"; "hPersist"; "hpExpire"; "hpExpireAt"; "hpExpireTime";
        "hpTTL"; "hRandField"; "hScan"; "hSet"; "hSetEx"; "hSetNX"; "hStrLen";
        "hTTL"; "hVals"];
     redisListKeys :=
       ["blMove"; "blmPop"; "blPop"; "brPop"; "brPopLPush"; "lIndex"; "lInsert";
        "lLen"; "lMove"; "lPop"; "lPos"; "lPush"; "lPushX"; "lRange"; "lRem";
        "lSet"; "lTrim"; "rPop"; "rPopLPush"; "rPush"; "rPushX"];
     redisScriptingKeys :=
       ["eval"; "evalRo"; "evalSha"; "evalShaRo"; "fCall"; "fCallRo";
        "functionDelete"; "functionDump"; "functionFlush"; "functionKill";
        "functionList"; "functionLoad"; "functionRestore"; "functionStats";
        "scriptDebug"; "scriptExists"; "scriptFlush"; "scriptKill"; "scriptLoad"];
     redisSetKeys :=
       ["sAdd"; "sCard"; "sDiff"; "sDiffStore"; "sInter"; "sInterCard";
        "sInterStore"; "sIsMember"; "sMembers"; "smIsMember"; "sMove"; "sPop";
        "sRandMember"; "sRem"; "sScan"; "sUnion"; "sUnionStore"];
     redisSortedSetKeys :=
       ["bzMPop"; "bzPopMax"; "bzPopMin"; "zAdd"; "zCard"; "zCount"; "zDiff";
        "zDiffStore"; "zIncrBy"; "zInter"; "zInterCard"; "zInterStore";
        "zLexCount"; "zmPop"; "zmScore"; "zPopMax"; "zPopMin"; "zRandMember";
        "zRange"; "zRangeByLex"; "zRangeByScore"; "zRangeStore"; "zRank"; "zRem";
        "zRemRangeByLex"; "zRemRangeByRank"; "zRemRangeByScore"; "zRevRank";
        "zScan"; "zScore"; "zUnion"; "zUnionStore"];
     redisStringKeys :=
       ["append"; "decr"; "decrBy"; "delEx"; "digest"; "get"; "getDel"; "getEx";
        "getRange"; "getSet"; "incr"; "incrBy"; "incrByFloat"; "lcs"; "mGet";
        "mSet"; "mSetEx"; "mSetNX"; "pSetEx"; "set"; "setEx"; "setNX";
        "setRange"; "strLen"];
     redisJsonKeys :=
       ["arrAppend"; "arrIndex"; "arrInsert"; "arrLen"; "arrPop"; "arrTrim";
        "clear"; "debugMemory"; "del"; "forget"; "get"; "merge"; "mGet"; "mSet";
        "numIncrBy"; "numMultBy"; "objKeys"; "objLen"; "set"; "strAppend";
        "strLen"; "toggle"; "type"] |}.

(** A store of string keys that understands [set key value] and [get key];
    it answers [null] to anything else. *)
Definition kv_step (cmd : Command) (s : gmap string JsValue)
    : JsValue * gmap string JsValue :=
  match cmd_args cmd with
  | [JStr k; v] =>
      if String.eqb (cmd_name cmd) "set" then (JStr "OK", <[k := v]> s)
      else (JNull, s)
  | [JStr k] =>
      if String.eqb (cmd_name cmd) "get" then (default JNull (s !! k), s)
      else (JNull, s)
  | _ => (JNull, s)
  end.

(** A client on which every name is a callable member. *)
Definition every_member : bool -> string -> bool := fun _ _ => true.

(** A client whose queuing handles lack [pfMerge]. *)
Definition without_pfMerge : bool -> string -> bool :=
  fun _ k => negb (String.eqb k "pfMerge").

Definition kv_client : RedisClientType (World (gmap string JsValue)) nat :=
  MemClient.client kv_step every_member.

(** An empty store behind an open connection. *)
Definition kv_world : World (gmap string JsValue) :=
  {| store := ∅; queues := ∅; next_handle := 0; trace := [];
     connected := true; discards := false |}.

(** The same, when the store is about to discard the next transaction. *)
Definition kv_world_discarding : World (gmap string JsValue) :=
  {| store := ∅; queues := ∅; next_handle := 0; trace := [];
     connected := true; discards := true |}.

(** The same, behind a closed connection. *)
Definition kv_world_closed : World (gmap string JsValue) :=
  {| store := ∅; queues := ∅; next_handle := 0; trace := [];
     connected := false; discards := false |}.

(** [tx => { tx.set("a", "1"); return 42 }] *)
Definition set_a_return_42 : Script Z :=
  Queue false "set" [JStr "a"; JStr "1"] (Return 42%Z).

(** The first handle the client hands out. *)
Definition kv_handle0 : RedisClientMultiCommandType (World (gmap string JsValue)) nat :=
  MemClient.handle kv_step every_member 0.

(** A composition function that throws before queuing anything. *)
Definition throw_boom : Script Z := Throw (JStr "boom").

(** [tx.set("a", "1")], then a typed failure. *)
Definition set_then_fail : Script Z :=
  Queue false "set" [JStr "a"; JStr "1"] (FailWith (NewRedisError (JStr "boom"))).

(** An object whose only callable member is [pfAdd]. *)
Definition only_pfAdd : JsObject unit (Settled JsValue) :=
  fun k =>
    if String.eqb k "pfAdd"
    then Some (fun _ w => (Returned (Resolved (JNum 1)), w))
    else None.

(** A client with that one command, and no [multi()]. *)
Definition only_pfAdd_client : RedisClientType unit nat :=
  {| client_method := only_pfAdd;
     client_json_method := only_pfAdd;
     client_multi := fun w => (Thrown (TypeError "multi"), w) |}.

(** The queued surface built over the first handle: what the composition
    function of the first orchestration is given, and may keep. *)
Definition kept_surface : @RedisTxShape (World (gmap string JsValue)) :=
  match makeRedisTx (families := readme_families) kv_handle0 with
  | Returned tx => tx
  | Thrown _ => {| tx_commands := ∅; tx_json := ∅ |}
  end.

(** A later composition function that ignores its own surface and calls
    [set("b", "2")] on the kept one. *)
Definition set_b_on_kept_surface
    : @RedisTxShape (World (gmap string JsValue)) ->
      Effect (World (gmap string JsValue)) RedisError unit :=
  fun _ => call_member (tx_commands kept_surface) "set" [JStr "b"; JStr "2"].

(** [tx => { tx.set("k", "v"); tx.get("k"); return true }] *)
Definition set_then_get : Script bool :=
  Queue false "set" [JStr "k"; JStr "v"] (Queue false "get" [JStr "k"] (Return true)).

(** ** Composition functions put together *)

(** [tx => Effect.gen(function* () { yield* f1(tx); return yield* f2(tx) })]
    for two scripts: the calls of [s1], then [s2]. *)
Fixpoint then_script {A B} (s1 : Script A) (s2 : Script B) : Script B :=
  match s1 with
  | Return _ => s2
  | Queue json k args next => Queue json k args (then_script next s2)
  | FailWith e => FailWith e
  | Throw d => Throw d
  end.

Section Composite.
Context {W Chain : Type} {families : FamilyKeys}.

(** A composition function that first runs a whole [pipeline] of the
    aggregate over [c], then goes on with its own surface:
    [tx => Effect.gen(function* () { const p = yield* redis.pipeline(inner);
    const b = yield* outer(tx); return [p, b] })]. *)
Definition pipeline_inside {A B} (c : RedisClientType W Chain)
    (inner : @RedisTxShape W -> Effect W RedisError A)
    (outer : @RedisTxShape W -> Effect W RedisError B)
    : @RedisTxShape W -> Effect W RedisError ((A * list JsValue) * B) :=
  fun tx =>
    yield p <~ core_pipeline c A inner;
    yield b <~ outer tx;
    Effect.succeed (p, b).

End Composite.

(** A [pipeline] result read as a [multi] result: the reply array is never
    the abort value. *)
Definition some_replies {E A} (x : Exit E (A * list JsValue))
    : Exit E (A * option (list JsValue)) :=
  match x with
  | Success (a, r) => Success (a, Some r)
  | Failure c => Failure c
  end.

(** The same reading of what an execution call gives. *)
Definition settled_some (o : Completion (Settled (list JsValue)))
    : Completion (Settled (option (list JsValue))) :=
  match o with
  | Returned (Resolved r) => Returned (Resolved (Some r))
  | Returned (Rejected e) => Returned (Rejected e)
  | Thrown e => Thrown e
  end.

(** * Properties *)

Section CoreFacts.
Context {W Chain : Type} {families : FamilyKeys}.

Local Abbreviation Eff := (Effect W RedisError).
Local Abbreviation AsyncCallable := (list JsValue -> Effect W RedisError JsValue).
Local Abbreviation QueueCallable := (list JsValue -> Effect W RedisError unit).
Local Abbreviation Client := (RedisClientType W Chain).
Local Abbreviation TxClient := (RedisClientMultiCommandType W Chain).
Local Abbreviation RedisTxShape := (@RedisTxShape W).
Local Abbreviation RedisCoreShape := (@RedisCoreShape W Chain families).

(** ** The two orchestrations, phase by phase *)

Lemma core_multi_phases A (c : Client) (program : RedisTxShape -> Eff A) w :
  core_multi c A program w =
  match open_build c program w with
  | (Success (txClient, a), w2) =>
      match multi_exec txClient w2 with
      | (Returned (Resolved r), w3) => (Success (a, r), w3)
      | (Returned (Rejected e), w3) => (Failure (Fail (NewRedisError e)), w3)
      | (Thrown e, w3) => (Failure (Fail (NewRedisError e)), w3)
      end
  | (Failure cs, w2) => (Failure cs, w2)
  end.
Proof.
  unfold core_multi, open_build, Effect.flatMap, Effect.pure_stmt, Effect.stmt,
    Effect.tryPromise, Effect.succeed.
  destruct (client_multi c w) as [[txClient|d] w1]; [|done].
  destruct (makeRedisTx txClient) as [txApi|d]; [|done].
  destruct (program txApi w1) as [[a|cs] w2]; [|done].
  destruct (multi_exec txClient w2) as [[[r|e]|e] w3]; done.
Qed.

Lemma core_pipeline_phases A (c : Client) (program : RedisTxShape -> Eff A) w :
  core_pipeline c A program w =
  match open_build c program w with
  | (Success (txClient, a), w2) =>
      match multi_execAsPipeline txClient w2 with
      | (Returned (Resolved r), w3) => (Success (a, r), w3)
      | (Returned (Rejected e), w3) => (Failure (Fail (NewRedisError e)), w3)
      | (Thrown e, w3) => (Failure (Fail (NewRedisError e)), w3)
      end
  | (Failure cs, w2) => (Failure cs, w2)
  end.
Proof.
  unfold core_pipeline, open_build, Effect.flatMap, Effect.pure_stmt, Effect.stmt,
    Effect.tryPromise, Effect.succeed.
  destruct (client_multi c w) as [[txClient|d] w1]; [|done].
  destruct (makeRedisTx txClient) as [txApi|d]; [|done].
  destruct (program txApi w1) as [[a|cs] w2]; [|done].
  destruct (multi_execAsPipeline txClient w2) as [[[r|e]|e] w3]; done.
Qed.

Lemma open_build_phases A (c : Client) (program : RedisTxShape -> Eff A) w :
  open_build c program w =
  match client_multi c w with
  | (Returned txClient, w1) =>
      match makeRedisTx txClient with
      | Returned txApi =>
          match program txApi w1 with
          | (Success a, w2) => (Success (txClient, a), w2)
          | (Failure cs, w2) => (Failure cs, w2)
          end
      | Thrown d => (Failure (Die d), w1)
      end
  | (Thrown d, w1) => (Failure (Die d), w1)
  end.
Proof.
  unfold open_build, Effect.flatMap, Effect.pure_stmt, Effect.stmt, Effect.succeed.
  destruct (client_multi c w) as [[txClient|d] w1]; [|done].
  destruct (makeRedisTx txClient) as [txApi|d]; [|done].
  destruct (program txApi w1) as [[a|cs] w2]; done.
Qed.

(** ** The factory: what a table contains, and when construction throws *)

Section Factory.
Context {R C : Type} (client : JsObject W R) (exec : JsObject W R -> string -> C).

Local Abbreviation step := (fun (acc : Completion (gmap string C)) k =>
  table ← acc;
  match client k with
  | Some _ => mret (<[k := exec client k]> table)
  | None => Thrown (TypeError k)
  end).

Lemma factory_fold_thrown keys e : foldl step (Thrown e) keys = Thrown e.
Proof. induction keys as [|k keys IH]; [done|]. simpl. apply IH. Qed.

Lemma factory_fold_returned keys t0 :
  Forall (fun k => is_Some (client k)) keys ->
  foldl step (Returned t0) keys =
  Returned (foldl (fun table k => <[k := exec client k]> table) t0 keys).
Proof.
  intros Hall. revert t0.
  induction Hall as [|k keys [m Hm] _ IH]; intros t0; [done|].
  simpl. rewrite Hm. simpl. apply IH.
Qed.

Lemma factory_fold_missing keys t0 :
  Exists (fun k => client k = None) keys ->
  exists k, k ∈ keys /\ client k = None /\
            foldl step (Returned t0) keys = Thrown (TypeError k).
Proof.
  revert t0. induction keys as [|k keys IH]; intros t0 Hex.
  - by apply Exists_nil in Hex.
  - simpl. destruct (client k) as [m|] eqn:Hk.
    + apply Exists_cons in Hex as [Hex|Hex]; [congruence|].
      destruct (IH (<[k := exec client k]> t0) Hex) as (k' & Hin & Hnone & Heq).
      exists k'. split; [by right|]. done.
    + exists k. split; [by left|]. split; [done|]. apply factory_fold_thrown.
Qed.

Lemma fold_insert_lookup keys (t0 : gmap string C) k :
  foldl (fun table k => <[k := exec client k]> table) t0 keys !! k =
  if decide (k ∈ keys) then Some (exec client k) else t0 !! k.
Proof.
  revert t0. induction keys as [|k' keys IH]; intros t0; cbn [foldl].
  - case_decide as Hin; [by apply elem_of_nil in Hin|done].
  - rewrite IH.
    destruct (decide (k ∈ keys)) as [Hin|Hnin],
             (decide (k ∈ k' :: keys)) as [Hin'|Hnin']; try done.
    + exfalso. apply Hnin'. by right.
    + apply elem_of_cons in Hin' as [->|Hin']; [apply lookup_insert_eq|done].
    + rewrite lookup_insert_ne; [done|]. intros ->. apply Hnin'. by left.
Qed.

Lemma group_table_lookup keys k :
  group_table client exec keys !! k = if decide (k ∈ keys) then Some (exec client k) else None.
Proof. unfold group_table. by rewrite fold_insert_lookup, lookup_empty. Qed.

Lemma makeCommandGroup_returned keys :
  Forall (fun k => is_Some (client k)) keys ->
  makeCommandGroup client keys exec = Returned (group_table client exec keys).
Proof. apply factory_fold_returned. Qed.

Lemma makeCommandGroup_thrown keys :
  Exists (fun k => client k = None) keys ->
  exists k, k ∈ keys /\ client k = None /\
            makeCommandGroup client keys exec = Thrown (TypeError k).
Proof. apply factory_fold_missing. Qed.

(** Construction either returns the full table or throws: no third case. *)
Lemma makeCommandGroup_cases keys :
  (Forall (fun k => is_Some (client k)) keys /\
   makeCommandGroup client keys exec = Returned (group_table client exec keys)) \/
  (exists k, k ∈ keys /\ client k = None /\
             makeCommandGroup client keys exec = Thrown (TypeError k)).
Proof.
  destruct (decide (Forall (fun k => is_Some (client k)) keys)) as [Hall|Hnall].
  - left. split; [done|]. by apply makeCommandGroup_returned.
  - right. apply makeCommandGroup_thrown.
    apply not_Forall_Exists in Hnall; [|intros k; apply _].
    eapply Exists_impl; [exact Hnall|]. intros k Hk. simpl in Hk.
    destruct (client k); [|done]. exfalso. apply Hk. by eexists.
Qed.

End Factory.

(** Object spread: a key is present when some table has it, and its value
    then comes from one of the tables. *)
Lemma spread_lookup_Some {C} (tables : list (gmap string C)) k v :
  spread tables !! k = Some v -> exists t, t ∈ tables /\ t !! k = Some v.
Proof.
  unfold spread.
  assert (Hgen : forall acc,
    foldl (fun acc t => t ∪ acc) acc tables !! k = Some v ->
    acc !! k = Some v \/ exists t, t ∈ tables /\ t !! k = Some v).
  { induction tables as [|t ts IH]; intros acc Hl; simpl in Hl; [by left|].
    destruct (IH _ Hl) as [Hacc|(t' & Hin & Ht')].
    - apply lookup_union_Some_raw in Hacc as [Ht|[_ Hacc]].
      + right. exists t. split; [by left|done].
      + by left.
    - right. exists t'. split; [by right|done]. }
  intros Hl. destruct (Hgen ∅ Hl) as [Hempty|Hex]; [|done].
  by rewrite lookup_empty in Hempty.
Qed.

Lemma spread_lookup_is_Some {C} (tables : list (gmap string C)) k :
  is_Some (spread tables !! k) <-> exists t, t ∈ tables /\ is_Some (t !! k).
Proof.
  split.
  - intros [v Hv]. destruct (spread_lookup_Some _ _ _ Hv) as (t & Hin & Ht).
    exists t. split; [done|]. by eexists.
  - unfold spread. intros (t & Hin & Ht).
    assert (Hgen : forall acc,
      is_Some (acc !! k) \/ (exists t, t ∈ tables /\ is_Some (t !! k)) ->
      is_Some (foldl (fun acc t => t ∪ acc) acc tables !! k)).
    { clear t Hin Ht. induction tables as [|t ts IH]; intros acc Hor; simpl.
      - destruct Hor as [Hacc|(t & Hin & _)]; [done|]. by apply elem_of_nil in Hin.
      - apply IH. destruct Hor as [Hacc|(t' & Hin & Ht')].
        + left. rewrite lookup_union_is_Some. by right.
        + apply elem_of_cons in Hin as [->|Hin].
          * left. rewrite lookup_union_is_Some. by left.
          * right. by exists t'. }
    apply Hgen. right. by exists t.
Qed.

Lemma spread_group_tables {R C} (client : JsObject W R)
    (exec : JsObject W R -> string -> C) (kss : list (list string)) k :
  spread (group_table client exec <$> kss) !! k =
  if decide (k ∈ concat kss) then Some (exec client k) else None.
Proof.
  destruct (spread (group_table client exec <$> kss) !! k) as [v|] eqn:Hl.
  - apply spread_lookup_Some in Hl as (t & Hin & Ht).
    apply list_elem_of_fmap in Hin as (ks & -> & Hks).
    rewrite group_table_lookup in Ht. case_decide as Hk; [|done].
    rewrite decide_True; [done|].
    apply list_elem_of_In, in_concat. exists ks.
    split; by apply list_elem_of_In.
  - case_decide as Hin; [|done]. exfalso.
    apply list_elem_of_In, in_concat in Hin as (ks & Hks & Hk).
    apply list_elem_of_In in Hks, Hk.
    assert (Hsome : is_Some (spread (group_table client exec <$> kss) !! k)).
    { apply spread_lookup_is_Some. exists (group_table client exec ks).
      split; [by apply list_elem_of_fmap_2|].
      rewrite group_table_lookup, decide_True by done. by eexists. }
    rewrite Hl in Hsome. by destruct Hsome.
Qed.

(** ** The two surfaces *)

Ltac unfold_families :=
  unfold makeRedisBitmap, makeRedisBitmapQueue, makeRedisGeneric,
    makeRedisGenericQueue, makeRedisHash, makeRedisHashQueue,
    makeRedisHyperLogLog, makeRedisHyperLogLogQueue, makeRedisList,
    makeRedisListQueue, makeRedisScripting, makeRedisScriptingQueue,
    makeRedisSet, makeRedisSetQueue, makeRedisSortedSet,
    makeRedisSortedSetQueue, makeRedisString, makeRedisStringQueue,
    makeRedisGeoSpatial, makeRedisGeoSpatialQueue, makeRedisJson,
    makeRedisJsonQueue in *.

(** Split a successful construction into the success of its first group. *)
Ltac invert_group H :=
  match type of H with
  | context [makeCommandGroup ?c ?ks ?e] =>
      let Hall := fresh "Hall" in
      let Heq := fresh "Heq" in
      destruct (makeCommandGroup_cases c e ks)
        as [[Hall Heq]|(? & ? & ? & Heq)];
      rewrite Heq in H; clear Heq; simpl in H; [|discriminate H]
  end.

Lemma makeRedisTx_returned (c : TxClient) :
  Forall (fun k => is_Some (multi_method c k)) flatKeys ->
  Forall (fun k => is_Some (multi_json_method c k)) redisJsonKeys ->
  makeRedisTx c = Returned
    {| tx_commands :=
         delete "json" (spread (group_table (multi_method c) QueueExec <$>
           [redisBitmapKeys; redisGenericKeys; redisHashKeys; redisHyperLogLogKeys;
            redisListKeys; redisScriptingKeys; redisSetKeys; redisSortedSetKeys;
            redisStringKeys; redisGeoSpatialKeys]));
       tx_json := group_table (multi_json_method c) QueueExec redisJsonKeys |}.
Proof.
  unfold flatKeys. rewrite Forall_concat. intros Hflat Hjson.
  repeat match goal with
         | H : Forall _ (_ :: _) |- _ => apply Forall_cons in H as [? H]
         end.
  unfold makeRedisTx. unfold_families.
  rewrite !makeCommandGroup_returned by done. reflexivity.
Qed.

Lemma makeRedisTx_inv (c : TxClient) txApi :
  makeRedisTx c = Returned txApi ->
  txApi =
    {| tx_commands :=
         delete "json" (spread (group_table (multi_method c) QueueExec <$>
           [redisBitmapKeys; redisGenericKeys; redisHashKeys; redisHyperLogLogKeys;
            redisListKeys; redisScriptingKeys; redisSetKeys; redisSortedSetKeys;
            redisStringKeys; redisGeoSpatialKeys]));
       tx_json := group_table (multi_json_method c) QueueExec redisJsonKeys |}.
Proof.
  unfold makeRedisTx. unfold_families. intros H.
  do 11 invert_group H. by injection H as <-.
Qed.

(** Every entry of the queued surface is the Queued adapter at its own
    name, whichever family lists the name. *)
Lemma tx_commands_lookup (c : TxClient) txApi k :
  makeRedisTx c = Returned txApi ->
  tx_commands txApi !! k =
  if decide (k ∈ flatKeys /\ k <> "json")
  then Some (QueueExec (multi_method c) k) else None.
Proof.
  intros ->%makeRedisTx_inv. cbn [tx_commands].
  destruct (decide (k = "json")) as [->|Hne].
  - rewrite lookup_delete_eq. rewrite decide_False; [done|]. tauto.
  - rewrite lookup_delete_ne by done. rewrite spread_group_tables.
    fold flatKeys. repeat case_decide; try done; tauto.
Qed.

Lemma tx_json_lookup (c : TxClient) txApi k :
  makeRedisTx c = Returned txApi ->
  tx_json txApi !! k =
  if decide (k ∈ redisJsonKeys)
  then Some (QueueExec (multi_json_method c) k) else None.
Proof. intros ->%makeRedisTx_inv. simpl. apply group_table_lookup. Qed.

Lemma makeRedisCore_inv (c : Client) core :
  makeRedisCore c = Returned core ->
  core =
    {| core_commands :=
         delete "pipeline" (delete "multi" (delete "json"
           (spread (group_table (client_method c) AsyncExec <$>
             [redisBitmapKeys; redisGenericKeys; redisHashKeys;
              redisHyperLogLogKeys; redisListKeys; redisScriptingKeys;
              redisSetKeys; redisSortedSetKeys; redisStringKeys;
              redisGeoSpatialKeys]))));
       core_json := group_table (client_json_method c) AsyncExec redisJsonKeys;
       multi := core_multi c;
       pipeline := core_pipeline c |}.
Proof.
  unfold makeRedisCore. unfold_families. intros H.
  do 11 invert_group H. by injection H as <-.
Qed.

Lemma makeRedisCore_returned (c : Client) :
  Forall (fun k => is_Some (client_method c k)) flatKeys ->
  Forall (fun k => is_Some (client_json_method c k)) redisJsonKeys ->
  exists core, makeRedisCore c = Returned core.
Proof.
  unfold flatKeys. rewrite Forall_concat. intros Hflat Hjson.
  repeat match goal with
         | H : Forall _ (_ :: _) |- _ => apply Forall_cons in H as [? H]
         end.
  unfold makeRedisCore. unfold_families.
  rewrite !makeCommandGroup_returned by done. by eexists.
Qed.

Lemma core_commands_lookup (c : Client) core k :
  makeRedisCore c = Returned core ->
  core_commands core !! k =
  if decide (k ∈ flatKeys /\ k ∉ ["json"; "multi"; "pipeline"])
  then Some (AsyncExec (client_method c) k) else None.
Proof.
  intros ->%makeRedisCore_inv. cbn [core_commands].
  destruct (decide (k ∈ ["json"; "multi"; "pipeline"])) as [Hin|Hnin].
  - rewrite decide_False by tauto.
    rewrite !elem_of_cons in Hin. destruct Hin as [->|[->|[->|Hin]]].
    + rewrite 2!lookup_delete_ne by done. apply lookup_delete_eq.
    + rewrite lookup_delete_ne by done. apply lookup_delete_eq.
    + apply lookup_delete_eq.
    + by apply elem_of_nil in Hin.
  - pose proof Hnin as Hnin'. rewrite !elem_of_cons, elem_of_nil in Hnin'.
    rewrite !lookup_delete_ne by naive_solver.
    rewrite spread_group_tables. fold flatKeys.
    repeat case_decide; try done; tauto.
Qed.

(** ** When an orchestration succeeds, and how it can fail *)

Lemma open_build_Success A (c : Client) (program : RedisTxShape -> Eff A)
    w txClient a w2 :
  open_build c program w = (Success (txClient, a), w2) <->
  built_and_ran c program w txClient (Success a) w2.
Proof.
  rewrite open_build_phases. unfold built_and_ran. split.
  - destruct (client_multi c w) as [[txClient'|d] w1]; [|done].
    destruct (makeRedisTx txClient') as [txApi|d] eqn:Htx; [|done].
    destruct (program txApi w1) as [[a'|cs] w2'] eqn:Hp; [|done].
    intros [= -> -> ->]. by exists txApi, w1.
  - intros (txApi & w1 & -> & -> & ->). done.
Qed.

Lemma open_build_Failure A (c : Client) (program : RedisTxShape -> Eff A)
    w cs w2 :
  open_build c program w = (Failure cs, w2) <->
  (exists txClient, built_and_ran c program w txClient (Failure cs) w2) \/
  (exists d, cs = Die d /\ open_threw c w d w2).
Proof.
  rewrite open_build_phases. unfold built_and_ran, open_threw. split.
  - destruct (client_multi c w) as [[txClient|d] w1] eqn:Hm.
    + destruct (makeRedisTx txClient) as [txApi|d] eqn:Htx.
      * destruct (program txApi w1) as [[a|cs'] w2'] eqn:Hp; [done|].
        intros [= -> ->]. left. exists txClient, txApi, w1. done.
      * intros [= <- <-]. right. exists d. split; [done|]. right.
        by exists txClient.
    + intros [= <- <-]. right. exists d. split; [done|]. by left.
  - intros [(txClient & txApi & w1 & -> & -> & ->)|(d & -> & [->|(txClient & -> & ->)])];
      done.
Qed.

Lemma core_multi_Success A (c : Client) (program : RedisTxShape -> Eff A)
    w a r w3 :
  core_multi c A program w = (Success (a, r), w3) <->
  exists txClient w2,
    built_and_ran c program w txClient (Success a) w2 /\
    multi_exec txClient w2 = (Returned (Resolved r), w3).
Proof.
  rewrite core_multi_phases. split.
  - destruct (open_build c program w) as [[[txClient a']|cs] w2] eqn:Hob; [|done].
    apply open_build_Success in Hob.
    destruct (multi_exec txClient w2) as [[[r'|e]|e] w3'] eqn:He; try done.
    intros [= -> -> ->]. by exists txClient, w2.
  - intros (txClient & w2 & Hob%open_build_Success & He). by rewrite Hob, He.
Qed.

Lemma core_pipeline_Success A (c : Client) (program : RedisTxShape -> Eff A)
    w a r w3 :
  core_pipeline c A program w = (Success (a, r), w3) <->
  exists txClient w2,
    built_and_ran c program w txClient (Success a) w2 /\
    multi_execAsPipeline txClient w2 = (Returned (Resolved r), w3).
Proof.
  rewrite core_pipeline_phases. split.
  - destruct (open_build c program w) as [[[txClient a']|cs] w2] eqn:Hob; [|done].
    apply open_build_Success in Hob.
    destruct (multi_execAsPipeline txClient w2) as [[[r'|e]|e] w3'] eqn:He; try done.
    intros [= -> -> ->]. by exists txClient, w2.
  - intros (txClient & w2 & Hob%open_build_Success & He). by rewrite Hob, He.
Qed.

Lemma core_multi_Failure A (c : Client) (program : RedisTxShape -> Eff A)
    w cs w3 :
  core_multi c A program w = (Failure cs, w3) <->
  (exists txClient, built_and_ran c program w txClient (Failure cs) w3) \/
  (exists txClient a w2 e,
     built_and_ran c program w txClient (Success a) w2 /\
     batch_failed (multi_exec txClient) w2 e w3 /\
     cs = Fail (NewRedisError e)) \/
  (exists d, cs = Die d /\ open_threw c w d w3).
Proof.
  rewrite core_multi_phases. unfold batch_failed. split.
  - destruct (open_build c program w) as [[[txClient a]|cs'] w2] eqn:Hob.
    + apply open_build_Success in Hob.
      destruct (multi_exec txClient w2) as [[[r|e]|e] w3'] eqn:He; [done|..];
        intros [= <- <-]; right; left; exists txClient, a, w2, e; auto.
    + intros [= -> ->]. apply open_build_Failure in Hob as [Hran|Hthrew]; auto.
  - intros [[txClient Hran]|[(txClient & a & w2 & e & Hran & He & ->)|Hthrew]].
    + assert (Hob : open_build c program w = (Failure cs, w3))
        by (apply open_build_Failure; eauto).
      by rewrite Hob.
    + apply open_build_Success in Hran. rewrite Hran.
      by destruct He as [->| ->].
    + assert (Hob : open_build c program w = (Failure cs, w3))
        by (apply open_build_Failure; eauto).
      by rewrite Hob.
Qed.

Lemma core_pipeline_Failure A (c : Client) (program : RedisTxShape -> Eff A)
    w cs w3 :
  core_pipeline c A program w = (Failure cs, w3) <->
  (exists txClient, built_and_ran c program w txClient (Failure cs) w3) \/
  (exists txClient a w2 e,
     built_and_ran c program w txClient (Success a) w2 /\
     batch_failed (multi_execAsPipeline txClient) w2 e w3 /\
     cs = Fail (NewRedisError e)) \/
  (exists d, cs = Die d /\ open_threw c w d w3).
Proof.
  rewrite core_pipeline_phases. unfold batch_failed. split.
  - destruct (open_build c program w) as [[[txClient a]|cs'] w2] eqn:Hob.
    + apply open_build_Success in Hob.
      destruct (multi_execAsPipeline txClient w2) as [[[r|e]|e] w3'] eqn:He; [done|..];
        intros [= <- <-]; right; left; exists txClient, a, w2, e; auto.
    + intros [= -> ->]. apply open_build_Failure in Hob as [Hran|Hthrew]; auto.
  - intros [[txClient Hran]|[(txClient & a & w2 & e & Hran & He & ->)|Hthrew]].
    + assert (Hob : open_build c program w = (Failure cs, w3))
        by (apply open_build_Failure; eauto).
      by rewrite Hob.
    + apply open_build_Success in Hran. rewrite Hran.
      by destruct He as [->| ->].
    + assert (Hob : open_build c program w = (Failure cs, w3))
        by (apply open_build_Failure; eauto).
      by rewrite Hob.
Qed.

End CoreFacts.

(** ** The orchestrations over the reference client *)

Section MemFacts.
Context {St : Type} {families : FamilyKeys}.
Variable step : Command -> St -> JsValue * St.
Variable callable : bool -> string -> bool.

Local Abbreviation W := (World St).
Local Abbreviation Eff := (Effect W RedisError).
Local Abbreviation TxShape := (@RedisTxShape W).
Local Abbreviation mkTx := (makeRedisTx (W:=W) (Chain:=nat)).
Local Abbreviation mem := (MemClient.client step callable).
Local Abbreviation mem_handle := (MemClient.handle step callable).
Local Abbreviation mem_multi := (core_multi mem).
Local Abbreviation mem_pipeline := (core_pipeline mem).
Local Abbreviation mem_open_build := (open_build mem).

(** The client and its handles have every command the families name. *)
Hypothesis callable_flat : forall k, k ∈ flatKeys -> callable false k = true.
Hypothesis callable_json : forall k, k ∈ redisJsonKeys -> callable true k = true.

Lemma mkTx_handle h : exists txApi, mkTx (mem_handle h) = Returned txApi.
Proof.
  eexists. apply makeRedisTx_returned.
  - apply Forall_forall. intros k Hk. simpl. unfold MemClient.handle_method.
    rewrite callable_flat by done. by eexists.
  - apply Forall_forall. intros k Hk. simpl. unfold MemClient.handle_method.
    rewrite callable_json by done. by eexists.
Qed.

Lemma call_member_mem h (txApi : TxShape) (json : bool) k args (w : W) :
  mkTx (mem_handle h) = Returned txApi ->
  call_member (if json then tx_json txApi else tx_commands txApi) k args w =
  if member json k
  then (Success tt,
        MemClient.enqueue h {| cmd_json := json; cmd_name := k; cmd_args := args |} w)
  else (Failure (Die (TypeError k)), w).
Proof.
  intros Htx. unfold call_member, member. destruct json.
  - rewrite (tx_json_lookup _ _ _ Htx).
    case_bool_decide as Hk.
    + rewrite decide_True by done. unfold QueueExec, invoke. simpl.
      unfold MemClient.handle_method. by rewrite callable_json.
    + by rewrite decide_False.
  - rewrite (tx_commands_lookup _ _ _ Htx).
    case_bool_decide as Hk.
    + rewrite decide_True by done. unfold QueueExec, invoke. simpl.
      unfold MemClient.handle_method. rewrite callable_flat; [done|tauto].
    + by rewrite decide_False.
Qed.

Lemma compose_mem {A} (s : Script A) h (txApi : TxShape) (w : W) :
  mkTx (mem_handle h) = Returned txApi ->
  compose s txApi w = (outcome s, enqueue_all h (queued s) w).
Proof.
  intros Htx. revert w. induction s as [a|json k args next IH|e|d]; intros w;
    try done.
  simpl. unfold Effect.flatMap. rewrite (call_member_mem h) by done.
  destruct (member json k); [|done]. by rewrite IH.
Qed.

Lemma enqueue_all_store h cmds (w : W) : store (enqueue_all h cmds w) = store w.
Proof. revert w. induction cmds as [|c cs IH]; intros w; [done|]. simpl. by rewrite IH. Qed.

Lemma enqueue_all_next h cmds (w : W) : next_handle (enqueue_all h cmds w) = next_handle w.
Proof. revert w. induction cmds as [|c cs IH]; intros w; [done|]. simpl. by rewrite IH. Qed.

Lemma enqueue_all_connected h cmds (w : W) : connected (enqueue_all h cmds w) = connected w.
Proof. revert w. induction cmds as [|c cs IH]; intros w; [done|]. simpl. by rewrite IH. Qed.

Lemma enqueue_all_discards h cmds (w : W) : discards (enqueue_all h cmds w) = discards w.
Proof. revert w. induction cmds as [|c cs IH]; intros w; [done|]. simpl. by rewrite IH. Qed.

Lemma enqueue_all_trace h cmds (w : W) :
  trace (enqueue_all h cmds w) = trace w ++ (EvQueue h <$> cmds).
Proof.
  revert w. induction cmds as [|c cs IH]; intros w; simpl.
  - by rewrite app_nil_r.
  - rewrite IH. simpl. by rewrite <- app_assoc.
Qed.

Lemma enqueue_all_queue h cmds (w : W) :
  MemClient.queue_of h (enqueue_all h cmds w) = MemClient.queue_of h w ++ cmds.
Proof.
  revert w. induction cmds as [|c cs IH]; intros w; simpl.
  - by rewrite app_nil_r.
  - rewrite IH. unfold MemClient.queue_of at 1. simpl.
    rewrite lookup_insert_eq. simpl. by rewrite <- app_assoc.
Qed.

Lemma enqueue_all_other h h' cmds (w : W) :
  h' <> h -> queues (enqueue_all h cmds w) !! h' = queues w !! h'.
Proof.
  intros Hne. revert w. induction cmds as [|c cs IH]; intros w; [done|].
  simpl. rewrite IH. simpl. by rewrite lookup_insert_ne.
Qed.

Lemma built_store (w : W) cmds : store (built w cmds) = store w.
Proof. unfold built. by rewrite enqueue_all_store. Qed.

Lemma built_connected (w : W) cmds : connected (built w cmds) = connected w.
Proof. unfold built. by rewrite enqueue_all_connected. Qed.

Lemma built_discards (w : W) cmds : discards (built w cmds) = discards w.
Proof. unfold built. by rewrite enqueue_all_discards. Qed.

Lemma built_next (w : W) cmds : next_handle (built w cmds) = S (next_handle w).
Proof. unfold built. by rewrite enqueue_all_next. Qed.

Lemma built_trace (w : W) cmds :
  trace (built w cmds) =
  trace w ++ EvMulti (next_handle w) :: (EvQueue (next_handle w) <$> cmds).
Proof. unfold built. rewrite enqueue_all_trace. simpl. by rewrite <- app_assoc. Qed.

Lemma built_queue (w : W) cmds : MemClient.queue_of (next_handle w) (built w cmds) = cmds.
Proof.
  unfold built. rewrite enqueue_all_queue. unfold MemClient.queue_of. simpl.
  by rewrite lookup_insert_eq.
Qed.

Lemma built_other (w : W) cmds h :
  h <> next_handle w -> queues (built w cmds) !! h = queues w !! h.
Proof.
  intros Hne. unfold built. rewrite enqueue_all_other by done. simpl.
  by rewrite lookup_insert_ne.
Qed.

Lemma open_build_mem {A} (s : Script A) (w : W) :
  mem_open_build (compose s) w =
  (match outcome s with
   | Success a => Success (mem_handle (next_handle w), a)
   | Failure cs => Failure cs
   end, built w (queued s)).
Proof.
  rewrite open_build_phases. simpl.
  destruct (mkTx_handle (next_handle w)) as [txApi Htx]. rewrite Htx.
  rewrite (compose_mem s _ _ _ Htx). by destruct (outcome s).
Qed.

Lemma run_batch_length cmds (s : St) :
  length (MemClient.run_batch step cmds s).1 = length cmds.
Proof.
  revert s. induction cmds as [|c cs IH]; intros s; [done|]. simpl.
  destruct (step c s) as [v s1]. specialize (IH s1).
  destruct (MemClient.run_batch step cs s1) as [vs s2]. simpl in *. by rewrite IH.
Qed.

(** The n-th reply is the store's reply to the n-th command, in the state
    the first n commands left. *)
Lemma run_batch_lookup cmds (s : St) n cmd :
  cmds !! n = Some cmd ->
  (MemClient.run_batch step cmds s).1 !! n =
  Some (step cmd (MemClient.run_batch step (take n cmds) s).2).1.
Proof.
  revert s n. induction cmds as [|c cs IH]; intros s n Hn; [done|].
  destruct n as [|n]; simpl in *.
  - injection Hn as ->. destruct (step cmd s) as [v s1].
    by destruct (MemClient.run_batch step cs s1).
  - destruct (step c s) as [v s1]. specialize (IH s1 n Hn).
    destruct (MemClient.run_batch step cs s1) as [vs s2].
    destruct (MemClient.run_batch step (take n cs) s1) as [vs' s2']. done.
Qed.

Lemma multi_mem_failure {A} (s : Script A) (w : W) cs :
  outcome s = Failure cs ->
  mem_multi A (compose s) w = (Failure cs, built w (queued s)).
Proof. intros Ho. by rewrite core_multi_phases, open_build_mem, Ho. Qed.

Lemma pipeline_mem_failure {A} (s : Script A) (w : W) cs :
  outcome s = Failure cs ->
  mem_pipeline A (compose s) w = (Failure cs, built w (queued s)).
Proof. intros Ho. by rewrite core_pipeline_phases, open_build_mem, Ho. Qed.

Lemma multi_mem_success {A} (s : Script A) (w : W) a :
  outcome s = Success a ->
  mem_multi A (compose s) w =
  let w2 := MemClient.log (EvExec (next_handle w)) (built w (queued s)) in
  if connected w then
    if discards w then (Failure (Fail (NewRedisError WatchError)), w2)
    else (Success (a, Some (MemClient.run_batch step (queued s) (store w)).1),
          MemClient.with_store (MemClient.run_batch step (queued s) (store w)).2 w2)
  else (Failure (Fail (NewRedisError ClientClosedError)), w2).
Proof.
  intros Ho. rewrite core_multi_phases, open_build_mem, Ho. simpl.
  unfold MemClient.exec.
  rewrite built_connected, built_discards, built_queue, built_store.
  destruct (connected w); [|done]. destruct (discards w); [done|].
  by destruct (MemClient.run_batch step (queued s) (store w)).
Qed.

Lemma pipeline_mem_success {A} (s : Script A) (w : W) a :
  outcome s = Success a ->
  mem_pipeline A (compose s) w =
  let w2 := MemClient.log (EvExecAsPipeline (next_handle w)) (built w (queued s)) in
  if connected w then
    (Success (a, (MemClient.run_batch step (queued s) (store w)).1),
     MemClient.with_store (MemClient.run_batch step (queued s) (store w)).2 w2)
  else (Failure (Fail (NewRedisError ClientClosedError)), w2).
Proof.
  intros Ho. rewrite core_pipeline_phases, open_build_mem, Ho. simpl.
  unfold MemClient.execAsPipeline.
  rewrite built_connected, built_queue, built_store.
  destruct (connected w); [|done].
  by destruct (MemClient.run_batch step (queued s) (store w)).
Qed.

End MemFacts.

(** ** The concrete instance at work *)

Example pipeline_set_a_return_42 :
  (core_pipeline (families := readme_families) kv_client Z
     (compose set_a_return_42) kv_world).1 = Success (42%Z, [JStr "OK"]).
Proof. vm_compute. reflexivity. Qed.

Example multi_set_then_get :
  (core_multi (families := readme_families) kv_client bool
     (compose set_then_get) kv_world).1 = Success (true, Some [JStr "OK"; JStr "v"]).
Proof. vm_compute. reflexivity. Qed.

(** * The specification, property by property *)

Section GenericClaims.
Context {W Chain : Type} {families : FamilyKeys}.

Local Abbreviation Eff := (Effect W RedisError).
Local Abbreviation Client := (RedisClientType W Chain).
Local Abbreviation TxClient := (RedisClientMultiCommandType W Chain).
Local Abbreviation RedisTxShape := (@RedisTxShape W).

(** C1. For every composition function, [multi] and [pipeline] return the
    pair whose first component is exactly the value the composition function
    produced on the surface it was given, and whose second component is what
    batch execution resolved with; a composition function that queues
    nothing and returns [v] yields [v]; over the reference client,
    [pipeline] applied to "queue one [set], return 42" yields 42 and one reply. *)
Theorem programResult_is_composition_value A (c : Client)
    (program : RedisTxShape -> Eff A) (w : W) :
  (forall a r w3,
     core_multi c A program w = (Success (a, r), w3) <->
     exists txClient w2,
       built_and_ran c program w txClient (Success a) w2 /\
       multi_exec txClient w2 = (Returned (Resolved r), w3)) /\
  (forall a r w3,
     core_pipeline c A program w = (Success (a, r), w3) <->
     exists txClient w2,
       built_and_ran c program w txClient (Success a) w2 /\
       multi_execAsPipeline txClient w2 = (Returned (Resolved r), w3)) /\
  (forall (v a : A) r w3,
     core_multi c A (fun _ => Effect.succeed v) w = (Success (a, r), w3) -> a = v) /\
  (forall (v a : A) r w3,
     core_pipeline c A (fun _ => Effect.succeed v) w = (Success (a, r), w3) -> a = v) /\
  (core_pipeline (families := readme_families) kv_client Z
     (compose (Return 7%Z)) kv_world).1 = Success (7%Z, []) /\
  exists r,
    (core_pipeline (families := readme_families) kv_client Z
       (compose set_a_return_42) kv_world).1 = Success (42%Z, r) /\
    length r = 1.
Proof.
  split; [intros; apply core_multi_Success|].
  split; [intros; apply core_pipeline_Success|].
  split.
  { intros v a r w3 (txClient & w2 & (txApi & w1 & _ & _ & Hp) & _)%core_multi_Success.
    unfold Effect.succeed in Hp. congruence. }
  split.
  { intros v a r w3 (txClient & w2 & (txApi & w1 & _ & _ & Hp) & _)%core_pipeline_Success.
    unfold Effect.succeed in Hp. congruence. }
  split; [vm_compute; reflexivity|].
  exists [JStr "OK"]. split; [vm_compute; reflexivity|reflexivity].
Qed.

(** C3. The exec slot of a [pipeline] result is the reply array
    [execAsPipeline()] resolved with, never [null]; when
    [execAsPipeline()] throws or rejects, the orchestration fails with the
    unified error wrapping the cause. *)
Theorem pipeline_exec_slot_never_null A (c : Client)
    (program : RedisTxShape -> Eff A) (w : W) :
  (forall a r w3,
     core_pipeline c A program w = (Success (a, r), w3) ->
     pipeline_slot r <> JNull /\
     exists (txClient : TxClient) w2,
       multi_execAsPipeline txClient w2 = (Returned (Resolved r), w3)) /\
  (forall txClient a w2 e w3,
     open_build c program w = (Success (txClient, a), w2) ->
     batch_failed (multi_execAsPipeline txClient) w2 e w3 ->
     core_pipeline c A program w = (Failure (Fail (NewRedisError e)), w3)).
Proof.
  split.
  - intros a r w3 (txClient & w2 & _ & He)%core_pipeline_Success.
    split; [done|]. by exists txClient, w2.
  - intros txClient a w2 e w3 Hob He. rewrite core_pipeline_phases, Hob.
    by destruct He as [->| ->].
Qed.

(** C4 (amended). An orchestration fails in exactly three ways, and a failed
    orchestration carries no Outcome Pair: with the cause of the composition
    function, unchanged (its typed failure is already the unified error);
    with the unified error wrapping the cause when the batch-execution call
    throws or rejects; as a defect carrying the raw thrown value when
    [c.multi()] or the construction of the surface throws. *)
Theorem orchestration_failure_kinds A (c : Client)
    (program : RedisTxShape -> Eff A) (w : W) :
  (forall cs w3,
     core_multi c A program w = (Failure cs, w3) <->
     (exists txClient, built_and_ran c program w txClient (Failure cs) w3) \/
     (exists txClient a w2 e,
        built_and_ran c program w txClient (Success a) w2 /\
        batch_failed (multi_exec txClient) w2 e w3 /\
        cs = Fail (NewRedisError e)) \/
     (exists d, cs = Die d /\ open_threw c w d w3)) /\
  (forall cs w3,
     core_pipeline c A program w = (Failure cs, w3) <->
     (exists txClient, built_and_ran c program w txClient (Failure cs) w3) \/
     (exists txClient a w2 e,
        built_and_ran c program w txClient (Success a) w2 /\
        batch_failed (multi_execAsPipeline txClient) w2 e w3 /\
        cs = Fail (NewRedisError e)) \/
     (exists d, cs = Die d /\ open_threw c w d w3)) /\
  (forall cs w3,
     core_multi c A program w = (Failure cs, w3) ->
     forall pair, (core_multi c A program w).1 <> Success pair) /\
  (forall cs w3,
     core_pipeline c A program w = (Failure cs, w3) ->
     forall pair, (core_pipeline c A program w).1 <> Success pair).
Proof.
  split; [intros; apply core_multi_Failure|].
  split; [intros; apply core_pipeline_Failure|].
  split; intros cs w3 ->; done.
Qed.

(** C10. When the composition function fails, [multi] and [pipeline] fail
    with that very cause, and the world they leave is the world the
    composition function left: no step of the orchestration follows it, so
    neither [exec] nor [execAsPipeline] is called. *)
Theorem composition_failure_skips_execute A (c : Client)
    (program : RedisTxShape -> Eff A) (w : W) txClient cs w2 :
  built_and_ran c program w txClient (Failure cs) w2 ->
  core_multi c A program w = (Failure cs, w2) /\
  core_pipeline c A program w = (Failure cs, w2).
Proof.
  intros Hran. split.
  - apply core_multi_Failure. left. by exists txClient.
  - apply core_pipeline_Failure. left. by exists txClient.
Qed.

(** C6. What construction does with its probe: it takes the client from
    the connection service and calls [eval] on it once, then drops the
    promise that call returns, neither awaiting nor inspecting it. Whether
    the promise resolves or rejects, construction goes on to build the
    aggregate; it ends as a defect only when the [eval] call itself, or the
    building of a table, throws. A probe that rejects therefore does not
    make construction fail. *)
Theorem RedisCoreLive_probe_is_not_awaited (conn : @RedisConnection W Chain) (w : W) :
  (forall promise w1,
     invoke (client_method (client conn)) "eval" probe_args w = (Returned promise, w1) ->
     RedisCoreLive conn w =
     (match makeRedisCore (client conn) with
      | Returned core => Success core
      | Thrown d => Failure (Die d)
      end, w1)) /\
  (forall d w1,
     invoke (client_method (client conn)) "eval" probe_args w = (Thrown d, w1) ->
     RedisCoreLive conn w = (Failure (Die d), w1)).
Proof.
  unfold RedisCoreLive, Effect.flatMap, Effect.stmt, Effect.pure_stmt, call_and_drop.
  split.
  - intros promise w1 ->. by destruct (makeRedisCore (client conn)).
  - by intros d w1 ->.
Qed.

(** C7. If some name of the set is not a callable member of the handle, the
    factory throws at construction, naming a missing member; if every name
    is, it returns the table whose entry at each name is the strategy's
    adapter for that name, and running the construction as a statement
    leaves the world as it was. The HyperLogLog family is the factory
    applied to its three names. *)
Theorem makeCommandGroup_fails_fast {R C} (client : JsObject W R)
    (exec : JsObject W R -> string -> C) (names : list string) :
  (Exists (fun k => client k = None) names ->
   exists k, k ∈ names /\ client k = None /\
             makeCommandGroup client names exec = Thrown (TypeError k)) /\
  (Forall (fun k => is_Some (client k)) names ->
   exists table,
     makeCommandGroup client names exec = Returned table /\
     (forall k, table !! k =
                if decide (k ∈ names) then Some (exec client k) else None) /\
     forall w : W,
       Effect.pure_stmt (E := RedisError) (makeCommandGroup client names exec) w =
       (Success table, w)) /\
  (forall c : Client,
     makeRedisHyperLogLog c =
     makeCommandGroup (client_method c) ["pfAdd"; "pfCount"; "pfMerge"] AsyncExec).
Proof.
  split; [apply makeCommandGroup_thrown|]. split; [|done].
  intros Hall. exists (group_table client exec names).
  rewrite makeCommandGroup_returned by done.
  split; [done|]. split; [|done]. intros k. apply group_table_lookup.
Qed.

(** C9. The HyperLogLog family is the three names [pfAdd], [pfCount],
    [pfMerge] and the geospatial family its ten names, each put through the
    factory once with the Immediate and once with the Queued strategy.
    When no family names a member [json], [multi] or [pipeline], the
    aggregate's flat part has exactly the names of the ten flattened
    families, each bound to the Immediate adapter of that name, the document
    family sits apart under [json], and the queued surface has the same
    shape with the Queued adapter. *)
Theorem families_through_one_factory (c : Client) (tx : TxClient) :
  Forall (fun k => k ∉ ["json"; "multi"; "pipeline"]) flatKeys ->
  redisHyperLogLogKeys = ["pfAdd"; "pfCount"; "pfMerge"] /\
  length redisGeoSpatialKeys = 10 /\ NoDup redisGeoSpatialKeys /\
  makeRedisHyperLogLog c =
    makeCommandGroup (client_method c) redisHyperLogLogKeys AsyncExec /\
  makeRedisHyperLogLogQueue tx =
    makeCommandGroup (multi_method tx) redisHyperLogLogKeys QueueExec /\
  makeRedisGeoSpatial c =
    makeCommandGroup (client_method c) redisGeoSpatialKeys AsyncExec /\
  makeRedisGeoSpatialQueue tx =
    makeCommandGroup (multi_method tx) redisGeoSpatialKeys QueueExec /\
  (forall core,
     makeRedisCore c = Returned core ->
     (forall k, core_commands core !! k =
                if decide (k ∈ flatKeys)
                then Some (AsyncExec (client_method c) k) else None) /\
     (forall k, core_json core !! k =
                if decide (k ∈ redisJsonKeys)
                then Some (AsyncExec (client_json_method c) k) else None)) /\
  (forall txApi,
     makeRedisTx tx = Returned txApi ->
     (forall k, tx_commands txApi !! k =
                if decide (k ∈ flatKeys)
                then Some (QueueExec (multi_method tx) k) else None) /\
     (forall k, tx_json txApi !! k =
                if decide (k ∈ redisJsonKeys)
                then Some (QueueExec (multi_json_method tx) k) else None)).
Proof.
  intros Hnames. rewrite Forall_forall in Hnames.
  do 2 (split; [reflexivity|]).
  split; [apply (bool_decide_unpack _); vm_compute; exact I|].
  do 4 (split; [reflexivity|]).
  split.
  - intros core Hcore. split.
    + intros k. rewrite (core_commands_lookup _ _ _ Hcore).
      destruct (decide (k ∈ flatKeys)) as [Hk|Hk].
      * rewrite decide_True; [done|]. split; [done|]. by apply Hnames.
      * rewrite decide_False; [done|]. tauto.
    + intros k. apply makeRedisCore_inv in Hcore as ->. apply group_table_lookup.
  - intros txApi Htx. split.
    + intros k. rewrite (tx_commands_lookup _ _ _ Htx).
      destruct (decide (k ∈ flatKeys)) as [Hk|Hk].
      * rewrite decide_True; [done|]. split; [done|].
        intros ->. apply (Hnames _ Hk). by left.
      * rewrite decide_False; [done|]. tauto.
    + intros k. by apply tx_json_lookup.
Qed.

End GenericClaims.

Section ReferenceClaims.
Context {St : Type} {families : FamilyKeys}.
Variable step : Command -> St -> JsValue * St.
Variable callable : bool -> string -> bool.

Local Abbreviation W := (World St).
Local Abbreviation mem := (MemClient.client step callable).
Local Abbreviation after := (world_after step callable).

Lemma world_after_spec {A} (atomic : bool) (s : Script A) (w : W) :
  (forall k, k ∈ flatKeys -> callable false k = true) ->
  (forall k, k ∈ redisJsonKeys -> callable true k = true) ->
  next_handle (after atomic s w) = S (next_handle w) /\
  queues (after atomic s w) = queues (built w (queued s)) /\
  exists tail,
    trace (after atomic s w) =
      trace w ++ EvMulti (next_handle w) :: (EvQueue (next_handle w) <$> queued s) ++ tail /\
    (tail = [] \/ tail = [EvExec (next_handle w)] \/
     tail = [EvExecAsPipeline (next_handle w)]).
Proof.
  intros Hflat Hjson. unfold world_after.
  destruct (outcome s) as [a|cs] eqn:Ho.
  - destruct atomic.
    + rewrite (multi_mem_success step callable Hflat Hjson s w a Ho). cbn zeta.
      destruct (connected w), (discards w); simpl;
        rewrite built_next, built_trace, <- app_assoc; simpl; eauto 10.
    + rewrite (pipeline_mem_success step callable Hflat Hjson s w a Ho). cbn zeta.
      destruct (connected w); simpl;
        rewrite built_next, built_trace, <- app_assoc; simpl; eauto 10.
  - destruct atomic;
      [rewrite (multi_mem_failure step callable Hflat Hjson s w cs Ho)
      |rewrite (pipeline_mem_failure step callable Hflat Hjson s w cs Ho)];
      simpl; rewrite built_next, built_trace;
      (split; [done|]); (split; [done|]); exists []; rewrite app_nil_r; auto.
Qed.

Lemma world_after_allocated {A} (atomic : bool) (s : Script A) (w : W) :
  (forall k, k ∈ flatKeys -> callable false k = true) ->
  (forall k, k ∈ redisJsonKeys -> callable true k = true) ->
  handles_allocated w -> handles_allocated (after atomic s w).
Proof.
  intros Hflat Hjson Hw h Hh.
  destruct (world_after_spec atomic s w Hflat Hjson) as (Hnext & Hq & _).
  rewrite Hnext. rewrite Hq in Hh.
  destruct (decide (h = next_handle w)) as [->|Hne]; [lia|].
  rewrite built_other in Hh by done. apply Hw in Hh. lia.
Qed.

Lemma fresh_handle (w : W) :
  handles_allocated w -> queues w !! next_handle w = None.
Proof.
  intros Hw. destruct (queues w !! next_handle w) eqn:Hq; [|done].
  assert (next_handle w < next_handle w) by (apply Hw; by eexists). lia.
Qed.

Lemma world_after_trace {A} (atomic : bool) (s : Script A) (w : W) :
  (forall k, k ∈ flatKeys -> callable false k = true) ->
  (forall k, k ∈ redisJsonKeys -> callable true k = true) ->
  trace (after atomic s w) =
    trace w ++ EvMulti (next_handle w)
      :: (EvQueue (next_handle w) <$> queued s)
      ++ execution_call atomic (next_handle w) (outcome s).
Proof.
  intros Hflat Hjson. unfold world_after.
  destruct (outcome s) as [a|cs] eqn:Ho; cbn [execution_call].
  - destruct atomic.
    + rewrite (multi_mem_success step callable Hflat Hjson s w a Ho). cbn zeta.
      destruct (connected w), (discards w); simpl;
        by rewrite built_trace, <- app_assoc.
    + rewrite (pipeline_mem_success step callable Hflat Hjson s w a Ho). cbn zeta.
      destruct (connected w); simpl; by rewrite built_trace, <- app_assoc.
  - destruct atomic;
      [rewrite (multi_mem_failure step callable Hflat Hjson s w cs Ho)
      |rewrite (pipeline_mem_failure step callable Hflat Hjson s w cs Ho)];
      cbn [snd]; by rewrite built_trace, app_nil_r.
Qed.

Lemma world_after_queue {A} (atomic : bool) (s : Script A) (w : W) :
  (forall k, k ∈ flatKeys -> callable false k = true) ->
  (forall k, k ∈ redisJsonKeys -> callable true k = true) ->
  MemClient.queue_of (next_handle w) (after atomic s w) = queued s.
Proof.
  intros Hflat Hjson.
  destruct (world_after_spec atomic s w Hflat Hjson) as (_ & Hq & _).
  unfold MemClient.queue_of. rewrite Hq. apply built_queue.
Qed.

(** Every invocation, whatever the composition function: the handle is the
    one [multi()] has just handed out, the function is given the table
    built over that handle, and the execution call is that handle's. *)
Lemma orchestration_over_its_own_handle {C}
    (program : @RedisTxShape W -> Effect W RedisError C) (w : W) :
  (forall k, k ∈ flatKeys -> callable false k = true) ->
  (forall k, k ∈ redisJsonKeys -> callable true k = true) ->
  exists txApi,
    makeRedisTx (MemClient.handle step callable (next_handle w)) = Returned txApi /\
    core_multi mem C program w =
      (yield programResult <~ program txApi;
       yield execResult <~ Effect.tryPromise NewRedisError
                             (MemClient.exec step (next_handle w));
       Effect.succeed (programResult, execResult)) (MemClient.start_batch w) /\
    core_pipeline mem C program w =
      (yield programResult <~ program txApi;
       yield execResult <~ Effect.tryPromise NewRedisError
                             (MemClient.execAsPipeline step (next_handle w));
       Effect.succeed (programResult, execResult)) (MemClient.start_batch w) /\
    forall json k args (w' : W),
      member json k = true ->
      call_member (if json then tx_json txApi else tx_commands txApi) k args w' =
      (Success tt,
       MemClient.enqueue (next_handle w)
         {| cmd_json := json; cmd_name := k; cmd_args := args |} w').
Proof.
  intros Hflat Hjson.
  destruct (mkTx_handle step callable Hflat Hjson (next_handle w)) as [txApi Htx].
  exists txApi. split; [exact Htx|].
  split; [|split].
  - unfold core_multi, Effect.flatMap at 1 2, Effect.stmt, Effect.pure_stmt.
    cbn [client_multi MemClient.client]. by rewrite Htx.
  - unfold core_pipeline, Effect.flatMap at 1 2, Effect.stmt, Effect.pure_stmt.
    cbn [client_multi MemClient.client]. by rewrite Htx.
  - intros json k args w' Hmem.
    rewrite (call_member_mem step callable Hflat Hjson _ _ _ _ _ _ Htx).
    by rewrite Hmem.
Qed.

(** C8 (amended). Over the reference client. Every invocation of [multi]
    or [pipeline], whatever its composition function, takes a handle from
    the client, gives the function the Queued table built over that handle
    (each entry of which records on that handle), and addresses its
    execution call to that handle. For two orchestrations run one after the
    other with scripts, which use only the surface they are given: each
    handle held nothing before, the two differ, the client sees for each
    exactly the request for the handle, the queued calls and the execution
    call, all on the orchestration's own handle, each handle holds exactly
    its own batch, and the second orchestration leaves the batch of the
    first as it was. *)
Theorem fresh_handle_and_table_per_orchestration {A B} (atomic1 atomic2 : bool)
    (s1 : Script A) (s2 : Script B) (w : W) :
  (forall k, k ∈ flatKeys -> callable false k = true) ->
  (forall k, k ∈ redisJsonKeys -> callable true k = true) ->
  handles_allocated w ->
  let h1 := next_handle w in
  let w1 := after atomic1 s1 w in
  let h2 := next_handle w1 in
  let w2 := after atomic2 s2 w1 in
  (forall C (program : @RedisTxShape W -> Effect W RedisError C) (w0 : W),
     exists txApi,
       makeRedisTx (MemClient.handle step callable (next_handle w0)) =
         Returned txApi /\
       core_multi mem C program w0 =
         (yield programResult <~ program txApi;
          yield execResult <~ Effect.tryPromise NewRedisError
                                (MemClient.exec step (next_handle w0));
          Effect.succeed (programResult, execResult)) (MemClient.start_batch w0) /\
       core_pipeline mem C program w0 =
         (yield programResult <~ program txApi;
          yield execResult <~ Effect.tryPromise NewRedisError
                                (MemClient.execAsPipeline step (next_handle w0));
          Effect.succeed (programResult, execResult)) (MemClient.start_batch w0) /\
       forall json k args (w' : W),
         member json k = true ->
         call_member (if json then tx_json txApi else tx_commands txApi) k args w' =
         (Success tt,
          MemClient.enqueue (next_handle w0)
            {| cmd_json := json; cmd_name := k; cmd_args := args |} w')) /\
  queues w !! h1 = None /\
  queues w1 !! h2 = None /\
  h1 <> h2 /\
  trace w1 =
    trace w ++ EvMulti h1 :: (EvQueue h1 <$> queued s1)
      ++ execution_call atomic1 h1 (outcome s1) /\
  trace w2 =
    trace w1 ++ EvMulti h2 :: (EvQueue h2 <$> queued s2)
      ++ execution_call atomic2 h2 (outcome s2) /\
  MemClient.queue_of h1 w1 = queued s1 /\
  MemClient.queue_of h2 w2 = queued s2 /\
  queues w2 !! h1 = queues w1 !! h1.
Proof.
  intros Hflat Hjson Hw h1 w1 h2 w2.
  pose proof (world_after_allocated atomic1 s1 w Hflat Hjson Hw) as Hw1.
  destruct (world_after_spec atomic1 s1 w Hflat Hjson) as (Hnext1 & _ & _).
  destruct (world_after_spec atomic2 s2 w1 Hflat Hjson) as (_ & Hq2 & _).
  assert (Hne : h1 <> h2) by (subst h1 h2 w1; rewrite Hnext1; lia).
  split; [intros C program w0; by apply orchestration_over_its_own_handle|].
  split; [by apply fresh_handle|]. split; [by apply fresh_handle|].
  split; [done|].
  split; [by apply world_after_trace|]. split; [by apply world_after_trace|].
  split; [by apply world_after_queue|]. split; [by apply world_after_queue|].
  subst w2. rewrite Hq2. by apply built_other.
Qed.

(** C5. Over the reference client, for every script: when Build ends the
    store is as it was and the client has received nothing but the request
    for a handle and the queued calls, in call order; when the script
    returns and the connection is up, [pipeline] (and [multi], unless the
    store discards) yields one reply per queued call, the n-th being the
    store's reply to the n-th queued call in the state the first n calls
    left behind. *)
Theorem queued_commands_deferred_then_replied_in_order {A} (s : Script A) (w : W) :
  (forall k, k ∈ flatKeys -> callable false k = true) ->
  (forall k, k ∈ redisJsonKeys -> callable true k = true) ->
  let replies := (MemClient.run_batch step (queued s) (store w)).1 in
  store (open_build mem (compose s) w).2 = store w /\
  trace (open_build mem (compose s) w).2 =
    trace w ++ EvMulti (next_handle w) :: (EvQueue (next_handle w) <$> queued s) /\
  (forall a,
     connected w = true -> outcome s = Success a ->
     (core_pipeline mem A (compose s) w).1 = Success (a, replies) /\
     (discards w = false ->
      (core_multi mem A (compose s) w).1 = Success (a, Some replies)) /\
     store (core_pipeline mem A (compose s) w).2 =
       (MemClient.run_batch step (queued s) (store w)).2) /\
  length replies = length (queued s) /\
  (forall n cmd,
     queued s !! n = Some cmd ->
     replies !! n =
     Some (step cmd (MemClient.run_batch step (take n (queued s)) (store w)).2).1).
Proof.
  intros Hflat Hjson replies.
  rewrite (open_build_mem step callable Hflat Hjson). cbn [snd].
  split; [apply built_store|]. split; [apply built_trace|].
  split; [|split; [apply run_batch_length|apply run_batch_lookup]].
  intros a Hconn Ho.
  rewrite (pipeline_mem_success step callable Hflat Hjson s w a Ho).
  rewrite (multi_mem_success step callable Hflat Hjson s w a Ho).
  cbn zeta. rewrite Hconn. split; [done|]. split; [by intros ->|done].
Qed.

(** C2. What [multi] does when the store discards the transaction: the
    client's [exec()] rejects with [WatchError], [Effect.tryPromise] wraps
    it, and the orchestration fails with the unified error, the store left
    as it was; it yields no pair. In no world is the exec slot of a pair
    [multi] returns [null]. *)
Theorem discarded_multi_fails_with_RedisError {A} (s : Script A) (w : W) a :
  (forall k, k ∈ flatKeys -> callable false k = true) ->
  (forall k, k ∈ redisJsonKeys -> callable true k = true) ->
  connected w = true -> discards w = true -> outcome s = Success a ->
  (core_multi mem A (compose s) w).1 =
    Failure (Fail (NewRedisError WatchError)) /\
  store (core_multi mem A (compose s) w).2 = store w /\
  (forall pair, (core_multi mem A (compose s) w).1 <> Success pair) /\
  (forall (w0 : W) a' r,
     (core_multi mem A (compose s) w0).1 = Success (a', r) ->
     multi_slot r <> JNull).
Proof.
  intros Hflat Hjson Hconn Hdisc Ho.
  assert (Hrun : (core_multi mem A (compose s) w).1 =
                 Failure (Fail (NewRedisError WatchError)) /\
                 store (core_multi mem A (compose s) w).2 = store w).
  { rewrite (multi_mem_success step callable Hflat Hjson s w a Ho). cbn zeta.
    rewrite Hconn, Hdisc. cbn [fst snd]. split; [done|].
    cbn [store MemClient.log]. apply built_store. }
  destruct Hrun as [Hfail Hstore].
  split; [exact Hfail|]. split; [exact Hstore|]. split.
  - intros pair. by rewrite Hfail.
  - intros w0 a' r.
    rewrite (multi_mem_success step callable Hflat Hjson s w0 a Ho). cbn zeta.
    destruct (connected w0), (discards w0); cbn [fst]; intros [=]; by subst.
Qed.

(** On the reference client, a failed composition function leaves the
    store untouched, and the client has seen no execution call. *)
Corollary failed_composition_sends_nothing {A} (atomic : bool) (s : Script A)
    (w : W) cs :
  (forall k, k ∈ flatKeys -> callable false k = true) ->
  (forall k, k ∈ redisJsonKeys -> callable true k = true) ->
  outcome s = Failure cs ->
  store (after atomic s w) = store w /\
  trace (after atomic s w) =
    trace w ++ EvMulti (next_handle w) :: (EvQueue (next_handle w) <$> queued s).
Proof.
  intros Hflat Hjson Ho. unfold world_after.
  destruct atomic;
    [rewrite (multi_mem_failure step callable Hflat Hjson s w cs Ho)
    |rewrite (pipeline_mem_failure step callable Hflat Hjson s w cs Ho)];
    cbn [snd]; by rewrite built_store, built_trace.
Qed.

End ReferenceClaims.

(** * The properties at concrete inputs *)

Section Instances.
Local Existing Instance readme_families.

Local Abbreviation KV := (World (gmap string JsValue)).

Lemma programResult_is_composition_value_witness :
  exists txClient w2,
    built_and_ran kv_client (compose set_a_return_42) kv_world txClient
      (Success 42%Z) w2 /\
    multi_exec txClient w2 =
      (Returned (Resolved (Some [JStr "OK"])),
       (core_multi kv_client Z (compose set_a_return_42) kv_world).2).
Proof.
  apply (proj1 (programResult_is_composition_value
                  Z kv_client (compose set_a_return_42) kv_world)).
  vm_compute. reflexivity.
Defined.

Lemma pipeline_exec_slot_never_null_witness :
  open_build kv_client (compose set_a_return_42) kv_world_closed =
    (Success (kv_handle0, 42%Z),
     (open_build kv_client (compose set_a_return_42) kv_world_closed).2) /\
  core_pipeline kv_client Z (compose set_a_return_42) kv_world_closed =
    (Failure (Fail (NewRedisError ClientClosedError)),
     (core_pipeline kv_client Z (compose set_a_return_42) kv_world_closed).2).
Proof.
  assert (Hob : open_build kv_client (compose set_a_return_42) kv_world_closed =
    (Success (kv_handle0, 42%Z),
     (open_build kv_client (compose set_a_return_42) kv_world_closed).2))
    by (vm_compute; reflexivity).
  split; [exact Hob|].
  refine (proj2 (pipeline_exec_slot_never_null
    Z kv_client (compose set_a_return_42) kv_world_closed)
    kv_handle0 42%Z _ ClientClosedError _ Hob _).
  left. vm_compute. reflexivity.
Defined.

(** C4, as stated, fails: a composition function that throws ends [multi]
    as a defect carrying the raw thrown value, which is not the unified
    error. *)
Lemma thrown_value_is_not_wrapped :
  (core_multi kv_client Z (compose throw_boom) kv_world).1 =
    Failure (Die (JStr "boom")) /\
  (forall e : RedisError,
     (core_multi kv_client Z (compose throw_boom) kv_world).1 <> Failure (Fail e)).
Proof.
  assert (H1 : (core_multi kv_client Z (compose throw_boom) kv_world).1 =
               Failure (Die (JStr "boom"))) by (vm_compute; reflexivity).
  split; [exact H1|]. intros e. rewrite H1. discriminate.
Qed.

(** So does a handle on which the surface cannot be constructed. *)
Example surface_construction_throw_is_a_defect :
  (core_pipeline (MemClient.client kv_step without_pfMerge) Z
     (compose set_a_return_42) kv_world).1 =
    Failure (Die (TypeError "pfMerge")).
Proof. vm_compute. reflexivity. Qed.

Lemma orchestration_failure_kinds_witness :
  (exists txClient,
     built_and_ran kv_client (compose set_then_fail) kv_world txClient
       (Failure (Fail (NewRedisError (JStr "boom"))))
       (core_multi kv_client Z (compose set_then_fail) kv_world).2) \/
  (exists txClient a w2 e,
     built_and_ran kv_client (compose set_then_fail) kv_world txClient (Success a) w2 /\
     batch_failed (multi_exec txClient) w2 e
       (core_multi kv_client Z (compose set_then_fail) kv_world).2 /\
     Fail (NewRedisError (JStr "boom")) = Fail (NewRedisError e)) \/
  (exists d,
     Fail (NewRedisError (JStr "boom")) = Die d /\
     open_threw kv_client kv_world d
       (core_multi kv_client Z (compose set_then_fail) kv_world).2).
Proof.
  apply (proj1 (orchestration_failure_kinds
                  Z kv_client (compose set_then_fail) kv_world)).
  vm_compute. reflexivity.
Defined.

Lemma composition_failure_skips_execute_witness :
  open_build kv_client (compose set_then_fail) kv_world =
    (Failure (Fail (NewRedisError (JStr "boom"))),
     (open_build kv_client (compose set_then_fail) kv_world).2) /\
  core_multi kv_client Z (compose set_then_fail) kv_world =
    (Failure (Fail (NewRedisError (JStr "boom"))),
     (open_build kv_client (compose set_then_fail) kv_world).2) /\
  core_pipeline kv_client Z (compose set_then_fail) kv_world =
    (Failure (Fail (NewRedisError (JStr "boom"))),
     (open_build kv_client (compose set_then_fail) kv_world).2).
Proof.
  assert (Hob : open_build kv_client (compose set_then_fail) kv_world =
    (Failure (Fail (NewRedisError (JStr "boom"))),
     (open_build kv_client (compose set_then_fail) kv_world).2))
    by (vm_compute; reflexivity).
  split; [exact Hob|].
  apply (composition_failure_skips_execute Z kv_client (compose set_then_fail)
           kv_world kv_handle0).
  unfold built_and_ran. do 2 eexists.
  split; [reflexivity|]. split; [reflexivity|]. vm_compute. reflexivity.
Defined.

(** Behind a closed connection the probe's promise rejects, yet
    construction succeeds. *)
Example broken_connection_is_not_detected :
  (invoke (client_method kv_client) "eval" probe_args kv_world_closed).1 =
    Returned (Rejected ClientClosedError) /\
  succeeded (RedisCoreLive {| client := kv_client |} kv_world_closed).1 = true.
Proof. split; vm_compute; reflexivity. Qed.

Lemma RedisCoreLive_probe_is_not_awaited_witness :
  invoke (client_method kv_client) "eval" probe_args kv_world_closed =
    (Returned (Rejected ClientClosedError),
     (invoke (client_method kv_client) "eval" probe_args kv_world_closed).2) /\
  RedisCoreLive {| client := kv_client |} kv_world_closed =
    (match makeRedisCore kv_client with
     | Returned core => Success core
     | Thrown d => Failure (Die d)
     end,
     (invoke (client_method kv_client) "eval" probe_args kv_world_closed).2).
Proof.
  assert (Hprobe :
    invoke (client_method kv_client) "eval" probe_args kv_world_closed =
    (Returned (Rejected ClientClosedError),
     (invoke (client_method kv_client) "eval" probe_args kv_world_closed).2))
    by reflexivity.
  split; [exact Hprobe|].
  exact (proj1 (RedisCoreLive_probe_is_not_awaited
                  {| client := kv_client |} kv_world_closed) _ _ Hprobe).
Defined.

Lemma makeCommandGroup_fails_fast_witness :
  Exists (fun k => only_pfAdd k = None) redisHyperLogLogKeys /\
  exists k, k ∈ redisHyperLogLogKeys /\ only_pfAdd k = None /\
            makeCommandGroup only_pfAdd redisHyperLogLogKeys AsyncExec =
            Thrown (TypeError k).
Proof.
  assert (Hmissing : Exists (fun k => only_pfAdd k = None) redisHyperLogLogKeys)
    by (apply Exists_cons_tl, Exists_cons_hd; reflexivity).
  split; [exact Hmissing|].
  exact (proj1 (makeCommandGroup_fails_fast (Chain := nat) only_pfAdd AsyncExec
                  redisHyperLogLogKeys) Hmissing).
Defined.

Example makeRedisHyperLogLog_only_pfAdd :
  makeRedisHyperLogLog only_pfAdd_client = Thrown (TypeError "pfCount").
Proof. reflexivity. Qed.

Lemma every_member_flat k : k ∈ flatKeys -> every_member false k = true.
Proof. reflexivity. Qed.

Lemma every_member_json k : k ∈ redisJsonKeys -> every_member true k = true.
Proof. reflexivity. Qed.

Lemma kv_world_allocated : handles_allocated kv_world.
Proof. intros h [cmds Hh]. cbn [kv_world queues] in Hh. by rewrite lookup_empty in Hh. Qed.

Lemma discarded_multi_fails_with_RedisError_witness :
  connected kv_world_discarding = true /\
  discards kv_world_discarding = true /\
  outcome set_then_get = Success true /\
  (core_multi kv_client bool (compose set_then_get) kv_world_discarding).1 =
    Failure (Fail (NewRedisError WatchError)) /\
  store (core_multi kv_client bool (compose set_then_get) kv_world_discarding).2 =
    store kv_world_discarding.
Proof.
  destruct (discarded_multi_fails_with_RedisError kv_step every_member
              set_then_get kv_world_discarding true
              every_member_flat every_member_json eq_refl eq_refl eq_refl)
    as (Hfail & Hstore & _).
  do 3 (split; [reflexivity|]). split; [exact Hfail|exact Hstore].
Defined.

Lemma queued_commands_deferred_then_replied_in_order_witness :
  store (open_build kv_client (compose set_then_get) kv_world).2 = store kv_world /\
  trace (open_build kv_client (compose set_then_get) kv_world).2 =
    trace kv_world ++ EvMulti 0 :: (EvQueue 0 <$> queued set_then_get) /\
  (core_pipeline kv_client bool (compose set_then_get) kv_world).1 =
    Success (true, [JStr "OK"; JStr "v"]) /\
  (core_multi kv_client bool (compose set_then_get) kv_world).1 =
    Success (true, Some [JStr "OK"; JStr "v"]) /\
  [JStr "OK"; JStr "v"] !! 1 =
    Some (kv_step {| cmd_json := false; cmd_name := "get"; cmd_args := [JStr "k"] |}
            (MemClient.run_batch kv_step (take 1 (queued set_then_get)) ∅).2).1.
Proof.
  destruct (queued_commands_deferred_then_replied_in_order kv_step every_member
              set_then_get kv_world every_member_flat every_member_json)
    as (Hstore & Htrace & Hexec & _ & Hnth).
  destruct (Hexec true eq_refl eq_refl) as (Hpipe & Hmulti & _).
  split; [exact Hstore|]. split; [exact Htrace|].
  split; [exact Hpipe|]. split; [exact (Hmulti eq_refl)|].
  exact (Hnth 1 _ eq_refl).
Defined.

Lemma fresh_handle_and_table_per_orchestration_witness :
  handles_allocated kv_world /\
  queues kv_world !! 0 = None /\
  queues (world_after kv_step every_member true set_then_get kv_world) !! 1 = None /\
  0 <> 1 /\
  trace (world_after kv_step every_member true set_then_get kv_world) =
    trace kv_world ++ EvMulti 0 :: (EvQueue 0 <$> queued set_then_get)
      ++ execution_call true 0 (outcome set_then_get) /\
  trace (world_after kv_step every_member false set_then_fail
           (world_after kv_step every_member true set_then_get kv_world)) =
    trace (world_after kv_step every_member true set_then_get kv_world)
      ++ EvMulti 1 :: (EvQueue 1 <$> queued set_then_fail)
      ++ execution_call false 1 (outcome set_then_fail) /\
  MemClient.queue_of 0 (world_after kv_step every_member true set_then_get kv_world) =
    queued set_then_get /\
  queues (world_after kv_step every_member false set_then_fail
            (world_after kv_step every_member true set_then_get kv_world)) !! 0 =
  queues (world_after kv_step every_member true set_then_get kv_world) !! 0.
Proof.
  destruct (fresh_handle_and_table_per_orchestration kv_step every_member
              true false set_then_get set_then_fail kv_world
              every_member_flat every_member_json kv_world_allocated)
    as (_ & Hfresh1 & Hfresh2 & Hne & Htr1 & Htr2 & Hq1 & _ & Hkept).
  split; [exact kv_world_allocated|]. split; [exact Hfresh1|].
  split; [exact Hfresh2|]. split; [exact Hne|].
  split; [exact Htr1|]. split; [exact Htr2|]. split; [exact Hq1|exact Hkept].
Defined.

(** C8, as stated, fails: the composition function of a first [pipeline]
    is given [kept_surface] and may keep it; a later [pipeline] whose
    composition function calls [set] on the kept surface succeeds, and the
    call is recorded on the first handle, after that handle was executed,
    while the later orchestration's own batch stays empty. *)
Lemma kept_surface_queues_on_a_finished_handle :
  makeRedisTx kv_handle0 = Returned kept_surface /\
  trace (world_after kv_step every_member false set_a_return_42 kv_world) =
    [EvMulti 0;
     EvQueue 0 {| cmd_json := false; cmd_name := "set";
                  cmd_args := [JStr "a"; JStr "1"] |};
     EvExecAsPipeline 0] /\
  (core_pipeline kv_client unit set_b_on_kept_surface
     (world_after kv_step every_member false set_a_return_42 kv_world)).1 =
    Success (tt, []) /\
  trace (core_pipeline kv_client unit set_b_on_kept_surface
           (world_after kv_step every_member false set_a_return_42 kv_world)).2 =
    [EvMulti 0;
     EvQueue 0 {| cmd_json := false; cmd_name := "set";
                  cmd_args := [JStr "a"; JStr "1"] |};
     EvExecAsPipeline 0;
     EvMulti 1;
     EvQueue 0 {| cmd_json := false; cmd_name := "set";
                  cmd_args := [JStr "b"; JStr "2"] |};
     EvExecAsPipeline 1] /\
  MemClient.queue_of 0
    (core_pipeline kv_client unit set_b_on_kept_surface
       (world_after kv_step every_member false set_a_return_42 kv_world)).2 =
    [{| cmd_json := false; cmd_name := "set"; cmd_args := [JStr "a"; JStr "1"] |};
     {| cmd_json := false; cmd_name := "set"; cmd_args := [JStr "b"; JStr "2"] |}].
Proof. repeat split; vm_compute; reflexivity. Qed.

Lemma readme_names_not_reserved :
  Forall (fun k => k ∉ ["json"; "multi"; "pipeline"]) flatKeys.
Proof. apply (bool_decide_unpack _). vm_compute. exact I. Qed.

Lemma families_through_one_factory_witness :
  Forall (fun k => k ∉ ["json"; "multi"; "pipeline"]) flatKeys /\
  exists core,
    makeRedisCore kv_client = Returned core /\
    core_commands core !! "pfAdd" = Some (AsyncExec (client_method kv_client) "pfAdd") /\
    core_commands core !! "geoSearch" =
      Some (AsyncExec (client_method kv_client) "geoSearch") /\
    core_commands core !! "get" = Some (AsyncExec (client_method kv_client) "get") /\
    core_json core !! "get" = Some (AsyncExec (client_json_method kv_client) "get") /\
    core_commands core !! "json" = None.
Proof.
  split; [exact readme_names_not_reserved|].
  destruct (makeRedisCore kv_client) as [core|d] eqn:Hcore; [|discriminate Hcore].
  exists core. split; [reflexivity|].
  destruct (families_through_one_factory kv_client kv_handle0
              readme_names_not_reserved)
    as (_ & _ & _ & _ & _ & _ & _ & Hagg & _).
  destruct (Hagg core Hcore) as [Hflat Hjson].
  rewrite !Hflat, Hjson. repeat split.
Defined.

End Instances.

(** * Further properties of the orchestrations and the surfaces *)

Section GenericExtras.
Context {W Chain : Type} {families : FamilyKeys}.

Local Abbreviation Eff := (Effect W RedisError).
Local Abbreviation Client := (RedisClientType W Chain).
Local Abbreviation TxClient := (RedisClientMultiCommandType W Chain).
Local Abbreviation RedisTxShape := (@RedisTxShape W).

(** X7. [multi] and [pipeline] differ in the execution call only: if, in
    the world the composition function leaves when it returns, the handle's
    [exec()] settles as its [execAsPipeline()] does (the same replies, or
    the same throw or rejection), then [multi] ends as [pipeline] does,
    with the reply array in the exec slot; when Open or Build fails the two
    end alike whatever the handle does. *)
Theorem multi_is_pipeline_up_to_execute A (c : Client)
    (program : RedisTxShape -> Eff A) (w : W) :
  (forall txClient a w2,
     open_build c program w = (Success (txClient, a), w2) ->
     (multi_exec txClient w2).1 =
       settled_some (multi_execAsPipeline txClient w2).1) ->
  (core_multi c A program w).1 = some_replies (core_pipeline c A program w).1.
Proof.
  intros He.
  rewrite core_multi_phases, core_pipeline_phases.
  destruct (open_build c program w) as [[[txClient a]|cs] w2] eqn:Hob; [|done].
  specialize (He txClient a w2 eq_refl).
  destruct (multi_exec txClient w2) as [o3 w3].
  destruct (multi_execAsPipeline txClient w2) as [[[r|e]|e] w3'];
    simpl in He; by subst o3.
Qed.

Ltac unfold_constructors :=
  unfold makeRedisBitmap, makeRedisBitmapQueue, makeRedisGeneric,
    makeRedisGenericQueue, makeRedisHash, makeRedisHashQueue,
    makeRedisHyperLogLog, makeRedisHyperLogLogQueue, makeRedisList,
    makeRedisListQueue, makeRedisScripting, makeRedisScriptingQueue,
    makeRedisSet, makeRedisSetQueue, makeRedisSortedSet,
    makeRedisSortedSetQueue, makeRedisString, makeRedisStringQueue,
    makeRedisGeoSpatial, makeRedisGeoSpatialQueue, makeRedisJson,
    makeRedisJsonQueue in *.

(** From a construction that returned, the members its first group needed. *)
Ltac first_group_members H :=
  match type of H with
  | context [makeCommandGroup ?c ?ks ?e] =>
      let Hall := fresh "Hall" in
      let Heq := fresh "Heq" in
      destruct (makeCommandGroup_cases c e ks)
        as [[Hall Heq]|(? & ? & ? & Heq)];
      rewrite Heq in H; clear Heq; simpl in H; [|discriminate H]
  end.

Lemma makeRedisCore_members (c : Client) core :
  makeRedisCore c = Returned core ->
  Forall (fun k => is_Some (client_method c k)) flatKeys /\
  Forall (fun k => is_Some (client_json_method c k)) redisJsonKeys.
Proof.
  unfold makeRedisCore. unfold_constructors. intros H.
  do 11 first_group_members H.
  split; [|assumption].
  unfold flatKeys. apply Forall_concat.
  repeat (apply Forall_cons_2; [assumption|]). apply Forall_nil_2.
Qed.

(** X4. On an aggregate that was built, every flat command name (none of
    the reserved [json], [multi], [pipeline]) is an entry, and running it
    is calling the client's own method of that name once: it succeeds with
    the value the promise resolves with, fails with the unified error
    wrapping the reason when the promise rejects or the call throws, and
    never ends as a defect. *)
Theorem immediate_command_settles_as_the_client (c : Client) core k args (w : W) :
  makeRedisCore c = Returned core ->
  k ∈ flatKeys -> k ∉ ["json"; "multi"; "pipeline"] ->
  exists f m,
    core_commands core !! k = Some f /\
    client_method c k = Some m /\
    f args w =
      (match (m args w).1 with
       | Returned (Resolved v) => Success v
       | Returned (Rejected e) => Failure (Fail (NewRedisError e))
       | Thrown e => Failure (Fail (NewRedisError e))
       end, (m args w).2) /\
    forall d, (f args w).1 <> Failure (Die d).
Proof.
  intros Hcore Hk Hres.
  destruct (makeRedisCore_members c core Hcore) as [Hflat _].
  rewrite Forall_forall in Hflat. destruct (Hflat k Hk) as [m Hm].
  exists (AsyncExec (client_method c) k), m.
  rewrite (core_commands_lookup _ _ _ Hcore), decide_True by done.
  split; [done|]. split; [done|].
  unfold AsyncExec, Effect.tryPromise, invoke. rewrite Hm.
  destruct (m args w) as [[[v|e]|e] w']; done.
Qed.

(** X5. The aggregate and the queued surface are spread from the same
    families: apart from [multi] and [pipeline], which the aggregate keeps
    for the orchestrations, a name is a flat command of the aggregate
    exactly when it is a queued command of a transaction, and the nested
    [json] groups carry the same names. *)
Theorem surfaces_expose_the_same_names (c : Client) (tx : TxClient) core txApi :
  makeRedisCore c = Returned core ->
  makeRedisTx tx = Returned txApi ->
  (forall k, k ∉ ["multi"; "pipeline"] ->
             (is_Some (core_commands core !! k) <->
              is_Some (tx_commands txApi !! k))) /\
  (forall k, is_Some (core_json core !! k) <-> is_Some (tx_json txApi !! k)) /\
  (forall k, k ∈ ["multi"; "pipeline"] -> core_commands core !! k = None).
Proof.
  intros Hcore Htx. split; [|split].
  - intros k Hk.
    rewrite (core_commands_lookup _ _ _ Hcore), (tx_commands_lookup _ _ _ Htx).
    rewrite !elem_of_cons, elem_of_nil in Hk.
    destruct (decide (k ∈ flatKeys /\ k ∉ ["json"; "multi"; "pipeline"]))
      as [[Hin Hres]|Hn];
      destruct (decide (k ∈ flatKeys /\ k <> "json")) as [[Hin' Hj]|Hn']; try done.
    + exfalso. apply Hn'. split; [done|]. intros ->. apply Hres. by left.
    + exfalso. apply Hn. split; [done|].
      rewrite !elem_of_cons, elem_of_nil. tauto.
  - intros k. apply makeRedisCore_inv in Hcore as ->.
    rewrite (tx_json_lookup _ _ _ Htx). cbn [core_json].
    rewrite group_table_lookup. by destruct (decide (k ∈ redisJsonKeys)).
  - intros k Hk. rewrite (core_commands_lookup _ _ _ Hcore).
    rewrite decide_False; [done|]. intros [_ Hres]. apply Hres.
    rewrite !elem_of_cons, elem_of_nil in Hk. destruct Hk as [->|[->|[]]].
    + right. by left.
    + right. right. by left.
Qed.

(** X8. The aggregate the layer provides is wired, in every part, to the
    one client of the connection service: its [multi] and [pipeline] open
    their handles on that client, and every flat entry and every [json]
    entry is the Immediate adapter over that client at the entry's own
    name. *)
Theorem layer_aggregate_is_wired_to_the_connection
    (conn : @RedisConnection W Chain) (w : W) core w1 :
  RedisCoreLive conn w = (Success core, w1) ->
  (forall A program w', multi core A program w' =
                        core_multi (client conn) A program w') /\
  (forall A program w', pipeline core A program w' =
                        core_pipeline (client conn) A program w') /\
  (forall k f, core_commands core !! k = Some f ->
               f = AsyncExec (client_method (client conn)) k) /\
  (forall k f, core_json core !! k = Some f ->
               f = AsyncExec (client_json_method (client conn)) k).
Proof.
  unfold RedisCoreLive, Effect.flatMap, Effect.stmt, Effect.pure_stmt, call_and_drop.
  destruct (invoke (client_method (client conn)) "eval" probe_args w)
    as [[promise|d] w0]; [|done].
  destruct (makeRedisCore (client conn)) as [core'|d] eqn:Hcore; [|done].
  intros [= -> ->].
  split; [|split; [|split]].
  - intros A program w'. by apply makeRedisCore_inv in Hcore as ->.
  - intros A program w'. by apply makeRedisCore_inv in Hcore as ->.
  - intros k f Hf. rewrite (core_commands_lookup _ _ _ Hcore) in Hf.
    case_decide; congruence.
  - intros k f Hf. apply makeRedisCore_inv in Hcore as ->.
    cbn [core_json] in Hf. rewrite group_table_lookup in Hf.
    case_decide; congruence.
Qed.

End GenericExtras.

Section ReferenceExtras.
Context {St : Type} {families : FamilyKeys}.
Variable step : Command -> St -> JsValue * St.
Variable callable : bool -> string -> bool.

Local Abbreviation W := (World St).
Local Abbreviation mem := (MemClient.client step callable).
Local Abbreviation after := (world_after step callable).

Hypothesis callable_flat : forall k, k ∈ flatKeys -> callable false k = true.
Hypothesis callable_json : forall k, k ∈ redisJsonKeys -> callable true k = true.

(** [then_script] is sequencing inside one generator. *)
Lemma compose_then_script {A B} (s1 : Script A) (s2 : Script B)
    (tx : @RedisTxShape W) (w : W) :
  compose (then_script s1 s2) tx w =
  (yield _ <~ compose s1 tx; compose s2 tx) w.
Proof.
  revert w. induction s1 as [a|json k args next IH|e|d]; intros w; try done.
  simpl. unfold Effect.flatMap in *.
  destruct (call_member _ k args w) as [[[]|cs] w1]; [apply IH|done].
Qed.

Lemma then_script_queued {A B} (s1 : Script A) (s2 : Script B) a :
  outcome s1 = Success a ->
  queued (then_script s1 s2) = queued s1 ++ queued s2 /\
  outcome (then_script s1 s2) = outcome s2.
Proof.
  induction s1 as [a'|json k args next IH|e|d]; simpl; intros Ho; try done.
  destruct (member json k); [|done].
  destruct (IH Ho) as [-> ->]. done.
Qed.

Lemma run_batch_app cmds1 cmds2 (s : St) :
  MemClient.run_batch step (cmds1 ++ cmds2) s =
  ((MemClient.run_batch step cmds1 s).1 ++
   (MemClient.run_batch step cmds2 (MemClient.run_batch step cmds1 s).2).1,
   (MemClient.run_batch step cmds2 (MemClient.run_batch step cmds1 s).2).2).
Proof.
  revert s. induction cmds1 as [|c cs IH]; intros s; simpl.
  - by destruct (MemClient.run_batch step cmds2 s).
  - destruct (step c s) as [v s1]. rewrite IH.
    destruct (MemClient.run_batch step cs s1) as [vs s2]. done.
Qed.

(** X1. Over the reference client, whenever the composition function
    returns, the orchestration makes exactly one execution call, after all
    the queued calls and on the handle it opened: [exec] for [multi],
    [execAsPipeline] for [pipeline]. This holds for an empty batch and for
    a closed connection as well. *)
Theorem execute_is_called_once_after_the_queued_calls {A} (atomic : bool)
    (s : Script A) (w : W) a :
  outcome s = Success a ->
  trace (after atomic s w) =
    trace w ++ EvMulti (next_handle w)
      :: (EvQueue (next_handle w) <$> queued s)
      ++ [if atomic then EvExec (next_handle w)
          else EvExecAsPipeline (next_handle w)].
Proof.
  intros Ho. unfold world_after. destruct atomic.
  - rewrite (multi_mem_success step callable callable_flat callable_json s w a Ho).
    cbn zeta. destruct (connected w), (discards w); simpl;
      by rewrite built_trace, <- app_assoc.
  - rewrite (pipeline_mem_success step callable callable_flat callable_json s w a Ho).
    cbn zeta. destruct (connected w); simpl;
      by rewrite built_trace, <- app_assoc.
Qed.

(** X6. Over the reference client, the commands a failed composition
    function had queued stay recorded on its handle and never reach the
    store: a [pipeline] run afterwards replies from its own batch, applied
    to the store as it was before the failed orchestration. *)
Theorem failed_batch_never_reaches_a_later_pipeline {A B} (atomic : bool)
    (s1 : Script A) (s2 : Script B) (w : W) cs b :
  outcome s1 = Failure cs ->
  outcome s2 = Success b ->
  connected w = true ->
  MemClient.queue_of (next_handle w) (after atomic s1 w) = queued s1 /\
  (core_pipeline mem B (compose s2) (after atomic s1 w)).1 =
    Success (b, (MemClient.run_batch step (queued s2) (store w)).1) /\
  store (core_pipeline mem B (compose s2) (after atomic s1 w)).2 =
    (MemClient.run_batch step (queued s2) (store w)).2.
Proof.
  intros Ho1 Ho2 Hconn.
  assert (Hafter : after atomic s1 w = built w (queued s1)).
  { unfold world_after. destruct atomic;
      [rewrite (multi_mem_failure step callable callable_flat callable_json s1 w cs Ho1)
      |rewrite (pipeline_mem_failure step callable callable_flat callable_json s1 w cs Ho1)];
      done. }
  rewrite Hafter. split; [apply built_queue|].
  rewrite (pipeline_mem_success step callable callable_flat callable_json s2 _ b Ho2).
  cbn zeta. rewrite built_connected, built_store, Hconn. done.
Qed.

(** X2. Over the reference client, with the connection up, running two
    pipelines one after the other gives the same replies, in the same
    order, and leaves the same store as one pipeline whose composition
    function makes the calls of the first and then those of the second. *)
Theorem two_pipelines_or_one {A B} (s1 : Script A) (s2 : Script B) (w : W) a b :
  connected w = true ->
  outcome s1 = Success a ->
  outcome s2 = Success b ->
  exists r1 r2,
    (core_pipeline mem A (compose s1) w).1 = Success (a, r1) /\
    (core_pipeline mem B (compose s2) (after false s1 w)).1 = Success (b, r2) /\
    (core_pipeline mem B (compose (then_script s1 s2)) w).1 =
      Success (b, r1 ++ r2) /\
    store (after false s2 (after false s1 w)) =
      store (after false (then_script s1 s2) w).
Proof.
  intros Hconn Ho1 Ho2.
  destruct (then_script_queued s1 s2 a Ho1) as [Hq Ho].
  rewrite Ho2 in Ho.
  exists (MemClient.run_batch step (queued s1) (store w)).1,
         (MemClient.run_batch step (queued s2)
            (MemClient.run_batch step (queued s1) (store w)).2).1.
  unfold world_after.
  rewrite !(pipeline_mem_success step callable callable_flat callable_json s1 w a Ho1).
  rewrite !(pipeline_mem_success step callable callable_flat callable_json
              (then_script s1 s2) w b Ho).
  cbn zeta. rewrite Hconn. cbn [fst snd].
  rewrite !(pipeline_mem_success step callable callable_flat callable_json s2 _ b Ho2).
  cbn zeta. cbn [connected store MemClient.with_store MemClient.log].
  rewrite built_connected, Hconn. cbn [fst snd store MemClient.with_store].
  rewrite Hq, run_batch_app. done.
Qed.

(** X3. Over the reference client, a composition function of [multi] that
    runs a whole [pipeline] before making its own queued calls: the inner
    pipeline gets a handle of its own, its batch is applied to the store
    first, and the outer batch, although its handle was opened earlier, is
    applied afterwards, to the store the inner batch left; neither batch
    holds a command of the other. *)
Theorem pipeline_inside_multi_runs_first {A B} (inner : Script A)
    (outer : Script B) (w : W) a b :
  connected w = true -> discards w = false ->
  outcome inner = Success a -> outcome outer = Success b ->
  let h0 := next_handle w in
  let inner_run := MemClient.run_batch step (queued inner) (store w) in
  let outer_run := MemClient.run_batch step (queued outer) inner_run.2 in
  let result :=
    core_multi mem _ (pipeline_inside mem (compose inner) (compose outer)) w in
  result.1 = Success (((a, inner_run.1), b), Some outer_run.1) /\
  store result.2 = outer_run.2 /\
  trace result.2 =
    trace w ++ [EvMulti h0; EvMulti (S h0)]
      ++ (EvQueue (S h0) <$> queued inner) ++ [EvExecAsPipeline (S h0)]
      ++ (EvQueue h0 <$> queued outer) ++ [EvExec h0].
Proof.
  intros Hconn Hdisc Hin Hout h0 inner_run outer_run result.
  subst result. rewrite core_multi_phases, open_build_phases.
  cbn [client_multi MemClient.client].
  destruct (mkTx_handle step callable callable_flat callable_json (next_handle w))
    as [txApi0 Htx0].
  rewrite Htx0. unfold pipeline_inside, Effect.flatMap.
  rewrite (pipeline_mem_success step callable callable_flat callable_json inner _ a Hin).
  cbn zeta. cbn [connected MemClient.start_batch]. rewrite Hconn.
  rewrite (compose_mem step callable callable_flat callable_json outer _ _ _ Htx0).
  rewrite Hout. unfold Effect.succeed.
  cbn [multi_exec MemClient.handle]. unfold MemClient.exec.
  rewrite enqueue_all_connected, enqueue_all_discards, enqueue_all_store,
    enqueue_all_queue.
  cbn [connected discards store MemClient.with_store MemClient.log].
  rewrite built_connected, built_discards.
  cbn [connected discards MemClient.start_batch]. rewrite Hconn, Hdisc.
  assert (Hq0 : MemClient.queue_of (next_handle w)
                  (MemClient.with_store
                     (MemClient.run_batch step (queued inner)
                        (store (MemClient.start_batch w))).2
                     (MemClient.log
                        (EvExecAsPipeline (next_handle (MemClient.start_batch w)))
                        (built (MemClient.start_batch w) (queued inner)))) = []).
  { unfold MemClient.queue_of. cbn [queues MemClient.with_store MemClient.log].
    rewrite built_other by (cbn [next_handle MemClient.start_batch]; lia).
    cbn [queues MemClient.start_batch]. by rewrite lookup_insert_eq. }
  rewrite Hq0. cbn [app store MemClient.start_batch].
  fold inner_run. fold outer_run.
  destruct outer_run as [vs st2] eqn:Hrun. cbn [fst snd].
  split; [done|]. split; [done|].
  cbn [trace MemClient.with_store MemClient.log].
  rewrite enqueue_all_trace. cbn [trace MemClient.with_store MemClient.log].
  rewrite built_trace. cbn [trace next_handle MemClient.start_batch].
  rewrite <- !app_assoc. done.
Qed.

End ReferenceExtras.

Section ExtraInstances.
Local Existing Instance readme_families.

Lemma multi_is_pipeline_up_to_execute_witness :
  (core_multi kv_client bool (compose set_then_get) kv_world).1 =
    some_replies (core_pipeline kv_client bool (compose set_then_get) kv_world).1.
Proof.
  apply (multi_is_pipeline_up_to_execute bool kv_client (compose set_then_get) kv_world).
  intros txClient a w2 Hob.
  assert (Hob' : open_build kv_client (compose set_then_get) kv_world =
    (Success (kv_handle0, true),
     (open_build kv_client (compose set_then_get) kv_world).2))
    by (vm_compute; reflexivity).
  rewrite Hob' in Hob. injection Hob as <- <- <-.
  vm_compute. reflexivity.
Defined.

Lemma execute_is_called_once_after_the_queued_calls_witness :
  outcome set_then_get = Success true /\
  trace (world_after kv_step every_member true set_then_get kv_world_closed) =
    trace kv_world_closed ++ EvMulti 0
      :: (EvQueue 0 <$> queued set_then_get) ++ [EvExec 0].
Proof.
  split; [reflexivity|].
  exact (execute_is_called_once_after_the_queued_calls kv_step every_member
           every_member_flat every_member_json true set_then_get
           kv_world_closed true eq_refl).
Defined.

Lemma failed_batch_never_reaches_a_later_pipeline_witness :
  outcome set_then_fail = Failure (Fail (NewRedisError (JStr "boom"))) /\
  MemClient.queue_of 0 (world_after kv_step every_member true set_then_fail kv_world) =
    queued set_then_fail /\
  (core_pipeline kv_client bool (compose set_then_get)
     (world_after kv_step every_member true set_then_fail kv_world)).1 =
    Success (true, (MemClient.run_batch kv_step (queued set_then_get) ∅).1).
Proof.
  split; [reflexivity|].
  destruct (failed_batch_never_reaches_a_later_pipeline kv_step every_member
              every_member_flat every_member_json true set_then_fail set_then_get
              kv_world _ true eq_refl eq_refl eq_refl) as (Hq & Hrun & _).
  split; [exact Hq|exact Hrun].
Defined.

Lemma two_pipelines_or_one_witness :
  exists r1 r2,
    (core_pipeline kv_client Z (compose set_a_return_42) kv_world).1 =
      Success (42%Z, r1) /\
    (core_pipeline kv_client bool (compose set_then_get)
       (world_after kv_step every_member false set_a_return_42 kv_world)).1 =
      Success (true, r2) /\
    (core_pipeline kv_client bool
       (compose (then_script set_a_return_42 set_then_get)) kv_world).1 =
      Success (true, r1 ++ r2) /\
    store (world_after kv_step every_member false set_then_get
             (world_after kv_step every_member false set_a_return_42 kv_world)) =
      store (world_after kv_step every_member false
               (then_script set_a_return_42 set_then_get) kv_world).
Proof.
  exact (two_pipelines_or_one kv_step every_member every_member_flat
           every_member_json set_a_return_42 set_then_get kv_world 42%Z true
           eq_refl eq_refl eq_refl).
Defined.

Lemma pipeline_inside_multi_runs_first_witness :
  (core_multi kv_client _
     (pipeline_inside kv_client (compose set_a_return_42) (compose set_then_get))
     kv_world).1 =
    Success (((42%Z, [JStr "OK"]), true), Some [JStr "OK"; JStr "v"]) /\
  trace (core_multi kv_client _
           (pipeline_inside kv_client (compose set_a_return_42) (compose set_then_get))
           kv_world).2 =
    trace kv_world ++ [EvMulti 0; EvMulti 1]
      ++ (EvQueue 1 <$> queued set_a_return_42) ++ [EvExecAsPipeline 1]
      ++ (EvQueue 0 <$> queued set_then_get) ++ [EvExec 0].
Proof.
  destruct (pipeline_inside_multi_runs_first kv_step every_member
              every_member_flat every_member_json set_a_return_42 set_then_get
              kv_world 42%Z true eq_refl eq_refl eq_refl eq_refl)
    as (Hres & _ & Htrace).
  split; [exact Hres|exact Htrace].
Defined.

Lemma immediate_command_settles_as_the_client_witness :
  exists core,
    makeRedisCore kv_client = Returned core /\
    exists f m,
      core_commands core !! "get" = Some f /\
      client_method kv_client "get" = Some m /\
      f [JStr "k"] kv_world_closed =
        (match (m [JStr "k"] kv_world_closed).1 with
         | Returned (Resolved v) => Success v
         | Returned (Rejected e) => Failure (Fail (NewRedisError e))
         | Thrown e => Failure (Fail (NewRedisError e))
         end, (m [JStr "k"] kv_world_closed).2) /\
      forall d, (f [JStr "k"] kv_world_closed).1 <> Failure (Die d).
Proof.
  destruct (makeRedisCore kv_client) as [core|d] eqn:Hcore; [|discriminate Hcore].
  exists core. split; [reflexivity|].
  apply (immediate_command_settles_as_the_client kv_client core "get"
           [JStr "k"] kv_world_closed Hcore).
  - apply (bool_decide_unpack _). vm_compute. exact I.
  - apply (bool_decide_unpack _). vm_compute. exact I.
Defined.

Lemma surfaces_expose_the_same_names_witness :
  exists core txApi,
    makeRedisCore kv_client = Returned core /\
    makeRedisTx kv_handle0 = Returned txApi /\
    (forall k, k ∉ ["multi"; "pipeline"] ->
               (is_Some (core_commands core !! k) <->
                is_Some (tx_commands txApi !! k))) /\
    (forall k, is_Some (core_json core !! k) <-> is_Some (tx_json txApi !! k)) /\
    (forall k, k ∈ ["multi"; "pipeline"] -> core_commands core !! k = None).
Proof.
  destruct (makeRedisCore kv_client) as [core|d] eqn:Hcore; [|discriminate Hcore].
  destruct (makeRedisTx kv_handle0) as [txApi|d] eqn:Htx; [|discriminate Htx].
  exists core, txApi. split; [reflexivity|]. split; [reflexivity|].
  exact (surfaces_expose_the_same_names kv_client kv_handle0 core txApi Hcore Htx).
Defined.

Lemma layer_aggregate_is_wired_to_the_connection_witness :
  exists core w1,
    RedisCoreLive {| client := kv_client |} kv_world = (Success core, w1) /\
    (forall A program w', multi core A program w' =
                          core_multi kv_client A program w') /\
    (forall k f, core_commands core !! k = Some f ->
                 f = AsyncExec (client_method kv_client) k).
Proof.
  destruct (RedisCoreLive {| client := kv_client |} kv_world)
    as [[core|cs] w1] eqn:Hlive; [|discriminate Hlive].
  exists core, w1. split; [reflexivity|].
  destruct (layer_aggregate_is_wired_to_the_connection
              {| client := kv_client |} kv_world core w1 Hlive)
    as (Hmulti & _ & Hflat & _).
  split; [exact Hmulti|exact Hflat].
Defined.

End ExtraInstances.
